(** * search-by-codeowner: a shallow embedding of [index.js]

    The script parses [.github/CODEOWNERS], selects the entries owned by a
    team, walks the owned paths while pruning what [.gitignore] excludes, and
    reports the files whose content contains a search term.

    Conventions of the embedding.
    - A JavaScript string is a [string]; a character stands for one code unit
      in the Latin-1 range, which fixes [toLowerCase], [trim] and [\s].
    - The file system is an explicit value: a tree of regular files and
      directories rooted at [/].  Symbolic links and special files are not
      part of it.
    - [console.log], [console.warn] and [console.error] append a structured
      message to an output trace; an exception is a value of [error].
    - [new RegExp(src).test(s)] is a parameter of the pipeline.  A reference
      matcher for a fragment of the regular-expression syntax is given in
      [Module Regex], with the relation [Matches] it is proved to compute;
      the statements about patterns hold for every engine that agrees with
      it on the fragment. *)

From Stdlib Require Import Strings.String Strings.Ascii Lists.List Bool.Bool.
From Stdlib Require Import Arith.PeanoNat NArith.NArith micromega.Lia.
Import ListNotations.

Local Open Scope string_scope.
Local Open Scope list_scope.

(** ** JavaScript string primitives used by the script *)

Module JsString.

Definition code (c : ascii) : N := N_of_ascii c.

(** [WhiteSpace] and [LineTerminator] code units below 256: TAB, LF, VT, FF,
    CR, SP and NBSP.  Both [String.prototype.trim] and the class [\s] use
    this set. *)
Definition is_space (c : ascii) : bool :=
  let n := code c in
  (((9 <=? n) && (n <=? 13)) || (n =? 32) || (n =? 160))%N.

(** [Character.toLowerCase] on Latin-1: A-Z and U+00C0..U+00DE but U+00D7. *)
Definition lower_char (c : ascii) : ascii :=
  let n := code c in
  if (((65 <=? n) && (n <=? 90))
      || ((192 <=? n) && (n <=? 222) && negb (n =? 215)))%N
  then ascii_of_N (n + 32) else c.

Fixpoint toLowerCase (s : string) : string :=
  match s with
  | EmptyString => EmptyString
  | String c s' => String (lower_char c) (toLowerCase s')
  end.

Definition startsWith (s p : string) : bool := String.prefix p s.

(** [s.includes(t)]: [t] occurs in [s] at some position. *)
Fixpoint includes (s t : string) : bool :=
  String.prefix t s
  || match s with
     | EmptyString => false
     | String _ s' => includes s' t
     end.

Fixpoint trimStart (s : string) : string :=
  match s with
  | EmptyString => EmptyString
  | String c s' => if is_space c then trimStart s' else s
  end.

Fixpoint trimEnd (s : string) : string :=
  match s with
  | EmptyString => EmptyString
  | String c s' =>
      match trimEnd s' with
      | EmptyString => if is_space c then EmptyString else String c EmptyString
      | t => String c t
      end
  end.

Definition trim (s : string) : string := trimEnd (trimStart s).

(** [s.split(sep)] for a one-character separator. *)
Fixpoint split (sep : ascii) (s : string) : list string :=
  match s with
  | EmptyString => [EmptyString]
  | String c s' =>
      if Ascii.eqb c sep then EmptyString :: split sep s'
      else match split sep s' with
           | t :: ts => String c t :: ts
           | [] => [String c EmptyString]
           end
  end.

(** [s.split(/\s+/)]: the separators are the maximal runs of white space.
    [insep] records that the previous character belonged to a run. *)
Fixpoint split_ws_from (insep : bool) (s : string) : list string :=
  match s with
  | EmptyString => [EmptyString]
  | String c s' =>
      if is_space c then
        if insep then split_ws_from true s'
        else EmptyString :: split_ws_from true s'
      else match split_ws_from false s' with
           | t :: ts => String c t :: ts
           | [] => [String c EmptyString]
           end
  end.

Definition split_ws (s : string) : list string := split_ws_from false s.

(** [s.replace(/c/g, by)] for a single character [c]; none of the
    replacement texts of the script contains a [$]. *)
Fixpoint replaceAll (c : ascii) (by_ : string) (s : string) : string :=
  match s with
  | EmptyString => EmptyString
  | String a s' =>
      if Ascii.eqb a c then by_ ++ replaceAll c by_ s'
      else String a (replaceAll c by_ s')
  end.

(** [s.replace(/^\//, '')]. *)
Definition stripLeadingSlash (s : string) : string :=
  match s with
  | String "/" s' => s'
  | _ => s
  end.

Definition join (sep : string) (l : list string) : string :=
  String.concat sep l.

End JsString.

Import JsString.

(** ** The [path] module (POSIX flavour), on absolute paths *)

Module Path.

Definition is_dot (seg : string) : bool := (seg =? ".")%string.
Definition is_dotdot (seg : string) : bool := (seg =? "..")%string.

(** Lexical resolution of the segments of an absolute path; [acc] is the
    reversed list of the segments kept so far. *)
Fixpoint resolve (acc : list string) (segs : list string) : list string :=
  match segs with
  | [] => rev acc
  | seg :: rest =>
      if (seg =? "")%string || is_dot seg then resolve acc rest
      else if is_dotdot seg then resolve (tl acc) rest
      else resolve (seg :: acc) rest
  end.

Definition segments (p : string) : list string := resolve [] (split "/" p).

Fixpoint endsWithSlash (p : string) : bool :=
  match p with
  | EmptyString => false
  | String c EmptyString => Ascii.eqb c "/"
  | String _ p' => endsWithSlash p'
  end.

(** [path.normalize] of an absolute path: a trailing separator is kept. *)
Definition normalize (p : string) : string :=
  match segments p with
  | [] => "/"
  | segs => "/" ++ join "/" segs ++ (if endsWithSlash p then "/" else "")
  end.

(** [path.join(a, b)] with [a] absolute: empty arguments are skipped. *)
Definition join (a b : string) : string :=
  match b with
  | EmptyString => normalize a
  | _ => normalize (a ++ "/" ++ b)
  end.

Fixpoint stripCommon (from to : list string) : list string * list string :=
  match from, to with
  | f :: from', t :: to' =>
      if (f =? t)%string then stripCommon from' to' else (from, to)
  | _, _ => (from, to)
  end.

(** [path.relative(from, to)] for two absolute paths. *)
Definition relative (from to : string) : string :=
  let '(up, down) := stripCommon (segments from) (segments to) in
  JsString.join "/" (map (fun _ => "..") up ++ down).

End Path.

(** ** The file system and the [fs] calls of the script *)

Module Fs.

(** A regular file with its decoded text ([None]: the file cannot be read),
    or a directory with its entries in listing order ([readable = false]:
    the directory cannot be listed). *)
#[warnings="-register-all"]
Inductive node : Type :=
| File (content : option string)
| Dir (readable : bool) (entries : list (string * node)).

Inductive error : Type :=
| ENOENT (p : string)
| EISDIR (p : string)
| ENOTDIR (p : string)
| EACCES (p : string)
| SyntaxError (source : string).

Inductive result (A : Type) : Type :=
| Ok (a : A)
| Throw (e : error).
Arguments Ok {A} a.
Arguments Throw {A} e.

Fixpoint child (name : string) (entries : list (string * node)) : option node :=
  match entries with
  | [] => None
  | (n, x) :: rest => if (n =? name)%string then Some x else child name rest
  end.

Fixpoint walk (n : node) (segs : list string) : option node :=
  match segs with
  | [] => Some n
  | seg :: rest =>
      match n with
      | Dir _ entries =>
          match child seg entries with
          | Some x => walk x rest
          | None => None
          end
      | File _ => None
      end
  end.

(** Name resolution of an absolute path; a trailing separator demands a
    directory. *)
Definition lookup (root : node) (p : string) : option node :=
  match walk root (Path.segments p) with
  | Some (File c) => if Path.endsWithSlash p then None else Some (File c)
  | r => r
  end.

Definition existsSync (root : node) (p : string) : bool :=
  match lookup root p with Some _ => true | None => false end.

Definition statSync (root : node) (p : string) : result node :=
  match lookup root p with Some n => Ok n | None => Throw (ENOENT p) end.

Definition isDirectory (n : node) : bool :=
  match n with Dir _ _ => true | File _ => false end.

Definition isFile (n : node) : bool :=
  match n with File _ => true | Dir _ _ => false end.

Definition readNode (p : string) (n : node) : result string :=
  match n with
  | File (Some text) => Ok text
  | File None => Throw (EACCES p)
  | Dir _ _ => Throw (EISDIR p)
  end.

(** [fs.readFileSync(p, 'utf8')]. *)
Definition readFileSync (root : node) (p : string) : result string :=
  match lookup root p with
  | Some n => readNode p n
  | None => Throw (ENOENT p)
  end.

End Fs.

Import Fs.

(** ** Console output, exceptions and process outcome *)

(** One constructor per [console] call of the script, carrying the values the
    template interpolates. *)
Inductive message : Type :=
| ErrCodeownersNotFound (filePath : string)
| LogParsed (count : nat) (filePath : string)
| WarnPathDoesNotExist (fullPath : string)
| WarnCouldNotRead (file : string) (e : error)
| ErrSearching (basePath : string) (e : error)
| LogSearchingInPath (entryPath : string)
| LogFound (count : nat) (searchTerm team : string)
| LogUsage
| LogExample
| LogSearchingFor (searchTerm team : string)
| LogFilesFound (count : nat)
| LogFile (file : string)
| LogCommaSeparated (joined : string)
| LogNoFiles.

(** A computation that writes to the console and may throw. *)
Definition io (A : Type) : Type := list message * result A.

Definition ret {A} (a : A) : io A := ([], Ok a).

Definition bind {A B} (m : io A) (k : A -> io B) : io B :=
  match m with
  | (out, Ok a) => let '(out', r) := k a in (out ++ out', r)
  | (out, Throw e) => (out, Throw e)
  end.

Definition say (m : message) : io unit := ([m], Ok tt).

Definition lift {A} (r : result A) : io A := ([], r).

(** The output of a block that cannot throw. *)
Definition emit (out : list message) : io unit := (out, Ok tt).

Notation "x <- m ;; k" := (bind m (fun x => k))
  (at level 61, m at next level, right associativity).
Notation "m ;;; k" := (bind m (fun _ => k))
  (at level 61, right associativity).

(** How the process ends: [process.exit(n)], falling off the end of the
    script, or an exception nobody caught (Node reports status 1). *)
Inductive outcome : Type :=
| Exited (status : nat)
| Completed
| Uncaught (e : error).

Definition exitStatus (o : outcome) : nat :=
  match o with
  | Exited n => n
  | Completed => 0
  | Uncaught _ => 1
  end.

(** ** The script *)

Record entry : Type := { path : string; owners : list string }.

(** [Set.prototype.add] on a set kept in insertion order. *)
Definition Set_add (s : list string) (x : string) : list string :=
  if existsb (String.eqb x) s then s else s ++ [x].

Definition LF : ascii := "010"%char.

Section Script.

(** [new RegExp(source).test(s)]: [None] when the constructor throws a
    [SyntaxError]. *)
Variable RegExp_test : string -> string -> option bool.

(** The file system and [process.cwd()]. *)
Variable fs : node.
Variable cwd : string.

Definition CODEOWNERS_FILE : string := Path.join cwd ".github/CODEOWNERS".

(** The body of the [for (const line of lines)] loop of [parseCodeowners]:
    [continue] leaves [entries] as it is. *)
Definition parseLine (entries : list entry) (line : string) : list entry :=
  let trimmedLine := trim line in
  if startsWith trimmedLine "#" || (trimmedLine =? "")%string then entries
  else
    let parts := split_ws trimmedLine in
    if (List.length parts <? 2)%nat then entries
    else
      let ownerPath := hd "" parts in
      let owners := filter (fun team => startsWith team "@") parts in
      entries ++ [{| path := ownerPath; owners := owners |}].

Definition parseCodeowners (filePath : string) : io (list entry) :=
  if negb (existsSync fs filePath) then
    say (ErrCodeownersNotFound filePath) ;;; ret []
  else
    content <- lift (readFileSync fs filePath) ;;
    let lines := split LF content in
    let entries := fold_left parseLine lines [] in
    say (LogParsed (List.length entries) filePath) ;;; ret entries.

Definition parseGitignore : result (list string) :=
  let gitignorePath := Path.join cwd ".gitignore" in
  match readFileSync fs gitignorePath with
  | Throw e => Throw e
  | Ok content =>
      Ok (fold_left Set_add
            (filter (fun line => negb (line =? "")%string
                                 && negb (startsWith line "#"))
                    (map trim (split LF content)))
            [])
  end.

(** The three [replace] calls of [isIgnored], in source order. *)
Definition regexPattern (pattern : string) : string :=
  replaceAll "?" "." (replaceAll "*" ".*" (replaceAll "." "\." pattern)).

Definition regexSource (pattern : string) : string :=
  let rp := regexPattern pattern in
  "^" ++ rp ++ "$|" ++ rp ++ "/|/" ++ rp ++ "$".

Fixpoint isIgnoredLoop (relativePath : string) (patterns : list string)
  : result bool :=
  match patterns with
  | [] => Ok false
  | pattern :: rest =>
      match RegExp_test (regexSource pattern) relativePath with
      | None => Throw (SyntaxError (regexSource pattern))
      | Some true => Ok true
      | Some false => isIgnoredLoop relativePath rest
      end
  end.

Definition isIgnored (filePath : string) (patterns : list string) : result bool :=
  let relativePath := Path.relative cwd filePath in
  isIgnoredLoop relativePath patterns.

(** [getAllFiles] once [ignorePatterns] is set: the recursion follows the
    directory tree, and [fs.statSync(filePath)] of a listed name is the node
    listed under that name. *)
Fixpoint getAllFilesIn (ignorePatterns : list string) (dirPath : string)
  (dir : node) (arrayOfFiles : list string) {struct dir} : result (list string) :=
  match dir with
  | File _ => Throw (ENOTDIR dirPath)
  | Dir false _ => Throw (EACCES dirPath)
  | Dir true files =>
      (fix forEach (files : list (string * node)) (arrayOfFiles : list string)
         {struct files} : result (list string) :=
         match files with
         | [] => Ok arrayOfFiles
         | (file, stat) :: rest =>
             let filePath := Path.join dirPath file in
             match isIgnored filePath ignorePatterns with
             | Throw e => Throw e
             | Ok true => forEach rest arrayOfFiles
             | Ok false =>
                 match stat with
                 | Dir _ _ =>
                     match getAllFilesIn ignorePatterns filePath stat arrayOfFiles with
                     | Throw e => Throw e
                     | Ok arrayOfFiles' => forEach rest arrayOfFiles'
                     end
                 | File _ => forEach rest (arrayOfFiles ++ [filePath])
                 end
             end
         end) files arrayOfFiles
  end.

Definition getAllFiles (dirPath : string) (arrayOfFiles : list string)
  (ignorePatterns : option (list string)) : result (list string) :=
  match (match ignorePatterns with
         | Some patterns => Ok patterns
         | None => parseGitignore
         end) with
  | Throw e => Throw e
  | Ok patterns =>
      match lookup fs dirPath with
      | None => Throw (ENOENT dirPath)
      | Some dir => getAllFilesIn patterns dirPath dir arrayOfFiles
      end
  end.

(** The [for (const file of files)] loop of [searchInFiles]; a failed read is
    caught inside the loop. *)
Fixpoint scanFiles (searchTerm : string) (files : list string)
  (matchingFiles : list string) : list message * list string :=
  match files with
  | [] => ([], matchingFiles)
  | file :: rest =>
      match readFileSync fs file with
      | Ok content =>
          if includes (toLowerCase content) (toLowerCase searchTerm)
          then scanFiles searchTerm rest (matchingFiles ++ [Path.relative cwd file])
          else scanFiles searchTerm rest matchingFiles
      | Throw e =>
          let '(out, r) := scanFiles searchTerm rest matchingFiles in
          (WarnCouldNotRead file e :: out, r)
      end
  end.

(** Every statement of [searchInFiles] after the first two sits in a [try]
    whose handler logs the error; the function returns [matchingFiles]
    whatever happens. *)
Definition searchInFiles (basePath searchTerm : string)
  : list message * list string :=
  let fullPath := Path.join cwd (stripLeadingSlash basePath) in
  if negb (existsSync fs fullPath) then ([WarnPathDoesNotExist fullPath], [])
  else
    match statSync fs fullPath with
    | Throw err => ([ErrSearching basePath err], [])
    | Ok stats =>
        if isFile stats then
          match readFileSync fs fullPath with
          | Ok content =>
              if includes (toLowerCase content) (toLowerCase searchTerm)
              then ([], [Path.relative cwd fullPath])
              else ([], [])
          | Throw err => ([WarnCouldNotRead fullPath err], [])
          end
        else if isDirectory stats then
          match getAllFiles fullPath [] None with
          | Throw err => ([ErrSearching basePath err], [])
          | Ok files => scanFiles searchTerm files []
          end
        else ([], [])
    end.

Definition ownedBy (team : string) (e : entry) : bool :=
  let ownersLower := map toLowerCase (owners e) in
  let teamLower := toLowerCase team in
  existsb (String.eqb teamLower) ownersLower.

Definition normalizedPath (e : entry) : string :=
  stripLeadingSlash (replaceAll "*" "" (path e)).

(** The [for (const entry of allEntries)] loop of [findCodeownersPaths]. *)
Fixpoint searchEntries (searchTerm team : string) (allEntries : list entry)
  (matchingFiles : list string) : list message * list string :=
  match allEntries with
  | [] => ([], matchingFiles)
  | e :: rest =>
      if ownedBy team e then
        let '(out, filesWithTerm) := searchInFiles (normalizedPath e) searchTerm in
        let '(out', r) :=
          searchEntries searchTerm team rest (fold_left Set_add filesWithTerm matchingFiles) in
        (LogSearchingInPath (path e) :: out ++ out', r)
      else searchEntries searchTerm team rest matchingFiles
  end.

Definition findCodeownersPaths (searchTerm team : string) : io (list string) :=
  allEntries <- parseCodeowners CODEOWNERS_FILE ;;
  let '(out, matchingFiles) := searchEntries searchTerm team allEntries [] in
  emit out ;;;
  say (LogFound (List.length matchingFiles) searchTerm team) ;;;
  ret matchingFiles.

Definition report (results : list string) : list message :=
  if (0 <? List.length results)%nat then
    LogFilesFound (List.length results)
      :: map LogFile results ++ [LogCommaSeparated (JsString.join ", " results)]
  else [LogNoFiles].

(** The main execution; [args] is [process.argv.slice(2)]. *)
Definition main (args : list string) : list message * outcome :=
  if (List.length args <? 2)%nat then ([LogUsage; LogExample], Exited 1)
  else
    let searchTerm := nth 0 args "" in
    let team := nth 1 args "" in
    match (say (LogSearchingFor searchTerm team) ;;;
           findCodeownersPaths searchTerm team) with
    | (out, Throw e) => (out, Uncaught e)
    | (out, Ok results) => (out ++ report results, Completed)
    end.

End Script.

(** ** A reference matcher for a fragment of JavaScript regular expressions

    The fragment: pattern characters, [.], an escaped syntax character or
    [/], the assertions [^] and [$], alternation, capturing and [(?:]
    groups, and the quantifiers [*], [+], [?] with their lazy forms.  No
    flags.  Character classes, braces, the other escapes and the other
    [(?] groups are outside the fragment.  Whether [test] answers [true] does
    not depend on greediness, so a lazy quantifier is read as its greedy
    form. *)

Module Regex.

Inductive regex : Type :=
| Empty
| Chr (c : ascii)
| Any
| Bol
| Eol
| Seq (r1 r2 : regex)
| Alt (r1 r2 : regex)
| Star (r : regex)
| Plus (r : regex)
| Opt (r : regex).

(** *** Reading the source text *)

Inductive compiled : Type :=
| Compiled (r : regex)
| Invalid
| Unsupported.

Inductive mode : Type :=
| Normal
| AfterBackslash
| AfterOpen
| AfterOpenQuestion.

(** What the term read last allows next: a quantifier ([Atom]), only the lazy
    mark ([Quantified]), or neither ([NoTerm]). *)
Inductive last : Type :=
| NoTerm
| Atom
| Quantified.

(** The alternatives and terms of the disjunction being read are kept most
    recent first; [p_stack] holds those of the enclosing groups. *)
Record pstate : Type := {
  p_mode : mode;
  p_last : last;
  p_alts : list regex;
  p_terms : list regex;
  p_stack : list (list regex * list regex)
}.

Definition start : pstate :=
  {| p_mode := Normal; p_last := NoTerm; p_alts := []; p_terms := [];
     p_stack := [] |}.

Definition seqOf (terms : list regex) : regex := fold_right Seq Empty terms.

Definition disjunction (alts terms : list regex) : regex :=
  fold_left (fun acc a => Alt a acc) alts (seqOf (rev terms)).

Definition isSyntaxCharacter (c : ascii) : bool :=
  existsb (Ascii.eqb c)
    ["^"; "$"; "\"; "."; "*"; "+"; "?"; "("; ")"; "["; "]"; "{"; "}"; "|"]%char.

Inductive step_result : Type :=
| Next (st : pstate)
| Stop (c : compiled).

Definition pushTerm (st : pstate) (t : regex) (l : last) : step_result :=
  Next {| p_mode := Normal; p_last := l; p_alts := p_alts st;
          p_terms := t :: p_terms st; p_stack := p_stack st |}.

Definition quantify (st : pstate) (q : regex -> regex) : step_result :=
  match p_last st, p_terms st with
  | Atom, t :: terms =>
      Next {| p_mode := Normal; p_last := Quantified; p_alts := p_alts st;
              p_terms := q t :: terms; p_stack := p_stack st |}
  | _, _ => Stop Invalid
  end.

Definition stepNormal (st : pstate) (c : ascii) : step_result :=
  if Ascii.eqb c "\" then
    Next {| p_mode := AfterBackslash; p_last := p_last st; p_alts := p_alts st;
            p_terms := p_terms st; p_stack := p_stack st |}
  else if Ascii.eqb c "(" then
    Next {| p_mode := AfterOpen; p_last := NoTerm; p_alts := []; p_terms := [];
            p_stack := (p_alts st, p_terms st) :: p_stack st |}
  else if Ascii.eqb c ")" then
    match p_stack st with
    | [] => Stop Invalid
    | (alts, terms) :: stack =>
        Next {| p_mode := Normal; p_last := Atom; p_alts := alts;
                p_terms := disjunction (p_alts st) (p_terms st) :: terms;
                p_stack := stack |}
    end
  else if Ascii.eqb c "|" then
    Next {| p_mode := Normal; p_last := NoTerm;
            p_alts := seqOf (rev (p_terms st)) :: p_alts st;
            p_terms := []; p_stack := p_stack st |}
  else if Ascii.eqb c "*" then quantify st Star
  else if Ascii.eqb c "+" then quantify st Plus
  else if Ascii.eqb c "?" then
    match p_last st with
    | Quantified =>
        Next {| p_mode := Normal; p_last := NoTerm; p_alts := p_alts st;
                p_terms := p_terms st; p_stack := p_stack st |}
    | _ => quantify st Opt
    end
  else if Ascii.eqb c "^" then pushTerm st Bol NoTerm
  else if Ascii.eqb c "$" then pushTerm st Eol NoTerm
  else if Ascii.eqb c "." then pushTerm st Any Atom
  else if isSyntaxCharacter c then Stop Unsupported
  else pushTerm st (Chr c) Atom.

Definition step (st : pstate) (c : ascii) : step_result :=
  match p_mode st with
  | Normal => stepNormal st c
  | AfterBackslash =>
      if isSyntaxCharacter c || Ascii.eqb c "/" then pushTerm st (Chr c) Atom
      else Stop Unsupported
  | AfterOpen =>
      if Ascii.eqb c "?" then
        Next {| p_mode := AfterOpenQuestion; p_last := p_last st;
                p_alts := p_alts st; p_terms := p_terms st;
                p_stack := p_stack st |}
      else stepNormal st c
  | AfterOpenQuestion =>
      if Ascii.eqb c ":" then
        Next {| p_mode := Normal; p_last := p_last st; p_alts := p_alts st;
                p_terms := p_terms st; p_stack := p_stack st |}
      else Stop Unsupported
  end.

Definition finish (st : pstate) : compiled :=
  match p_mode st with
  | AfterBackslash => Invalid
  | AfterOpenQuestion => Unsupported
  | Normal | AfterOpen =>
      match p_stack st with
      | [] => Compiled (disjunction (p_alts st) (p_terms st))
      | _ :: _ => Invalid
      end
  end.

Fixpoint parseFrom (st : pstate) (source : string) : compiled :=
  match source with
  | EmptyString => finish st
  | String c rest =>
      match step st c with
      | Next st' => parseFrom st' rest
      | Stop r => r
      end
  end.

(** [new RegExp(source)]. *)
Definition compile (source : string) : compiled := parseFrom start source.

(** *** Matching *)

(** A position: whether nothing of the input has been consumed yet, and what
    is left of the input. *)
Definition position : Type := bool * string.

Definition isLineTerminator (c : ascii) : bool :=
  Ascii.eqb c "010" || Ascii.eqb c "013".

(** Repetition of [body]: an iteration that consumes nothing is rejected, so
    the input left bounds the number of iterations. *)
Fixpoint iterate (body : position -> (position -> bool) -> bool) (fuel : nat)
  (p : position) (k : position -> bool) : bool :=
  k p
  || match fuel with
     | 0 => false
     | S fuel' =>
         body p (fun p' =>
           (String.length (snd p') <? String.length (snd p))%nat
           && iterate body fuel' p' k)
     end.

(** [matchAt r p k]: [r] matches a prefix of the input left at [p] and the
    continuation [k] accepts the position reached. *)
Fixpoint matchAt (r : regex) (p : position) (k : position -> bool) : bool :=
  match r with
  | Empty => k p
  | Chr c =>
      match snd p with
      | String a rest => Ascii.eqb a c && k (false, rest)
      | EmptyString => false
      end
  | Any =>
      match snd p with
      | String a rest => negb (isLineTerminator a) && k (false, rest)
      | EmptyString => false
      end
  | Bol => fst p && k p
  | Eol =>
      match snd p with
      | EmptyString => k p
      | String _ _ => false
      end
  | Seq r1 r2 => matchAt r1 p (fun p' => matchAt r2 p' k)
  | Alt r1 r2 => matchAt r1 p k || matchAt r2 p k
  | Star r' => iterate (matchAt r') (String.length (snd p)) p k
  | Plus r' =>
      matchAt r' p (fun p' => iterate (matchAt r') (String.length (snd p')) p' k)
  | Opt r' => matchAt r' p k || k p
  end.

(** The continuation of [test]: a match may end anywhere. *)
Definition accept : position -> bool := fun _ => true.

(** Without the sticky flag the match may start at any index. *)
Fixpoint searchFrom (r : regex) (atStart : bool) (s : string) : bool :=
  matchAt r (atStart, s) accept
  || match s with
     | EmptyString => false
     | String _ rest => searchFrom r false rest
     end.

(** [regex.test(s)]. *)
Definition exec (r : regex) (s : string) : bool := searchFrom r true s.

(** *** What a regular expression of the fragment denotes *)

(** [Matches r p q]: read from position [p], the expression [r] can consume
    input up to position [q]. *)
Inductive Matches : regex -> position -> position -> Prop :=
| MEmpty p : Matches Empty p p
| MChr c b s : Matches (Chr c) (b, String c s) (false, s)
| MAny a b s : isLineTerminator a = false -> Matches Any (b, String a s) (false, s)
| MBol s : Matches Bol (true, s) (true, s)
| MEol b : Matches Eol (b, EmptyString) (b, EmptyString)
| MSeq r1 r2 p q t : Matches r1 p q -> Matches r2 q t -> Matches (Seq r1 r2) p t
| MAltL r1 r2 p q : Matches r1 p q -> Matches (Alt r1 r2) p q
| MAltR r1 r2 p q : Matches r2 p q -> Matches (Alt r1 r2) p q
| MStarStop r p : Matches (Star r) p p
| MStarStep r p q t :
    Matches r p q -> Matches (Star r) q t -> Matches (Star r) p t
| MPlus r p q t : Matches r p q -> Matches (Star r) q t -> Matches (Plus r) p t
| MOptSkip r p : Matches (Opt r) p p
| MOptTake r p q : Matches r p q -> Matches (Opt r) p q.

(** The reference engine; outside the fragment it gives no information and
    answers as for an invalid source. *)
Definition reference (source s : string) : option bool :=
  match compile source with
  | Compiled r => Some (exec r s)
  | Invalid => None
  | Unsupported => None
  end.

(** An engine conforms when it agrees with the reference matcher on every
    source of the fragment. *)
Definition conforms (engine : string -> string -> option bool) : Prop :=
  forall source,
    match compile source with
    | Compiled r => forall s, engine source s = Some (exec r s)
    | Invalid => forall s, engine source s = None
    | Unsupported => True
    end.

End Regex.


(** ** Vocabulary of the statements *)

(** [t] occurs in [s] as a contiguous substring. *)
Definition occursIn (t s : string) : Prop :=
  exists pre post, s = (pre ++ t ++ post)%string.

(** The files [searchInFiles] reads for a base path: the path itself when it
    names a regular file, the result of the walk when it names a directory. *)
Definition candidate (RegExp_test : string -> string -> option bool)
  (fs : node) (cwd basePath file : string) : Prop :=
  let fullPath := Path.join cwd (stripLeadingSlash basePath) in
  (exists text, lookup fs fullPath = Some (File text) /\ file = fullPath)
  \/ (exists readable entries files,
        lookup fs fullPath = Some (Dir readable entries)
        /\ getAllFiles RegExp_test fs cwd fullPath [] None = Ok files
        /\ In file files).

(** A pattern made of characters that mean themselves in a regular
    expression, and of dots, which [isIgnored] escapes. *)
Fixpoint plainPattern (pattern : string) : bool :=
  match pattern with
  | EmptyString => true
  | String c rest =>
      (negb (Regex.isSyntaxCharacter c) || Ascii.eqb c ".") && plainPattern rest
  end.

(** The regular expression [isIgnored] builds from a plain pattern: the
    pattern as the whole path, the pattern before a separator, or the pattern
    after a separator at the end of the path. *)
Fixpoint literals (pattern : string) : list Regex.regex :=
  match pattern with
  | EmptyString => []
  | String c rest => Regex.Chr c :: literals rest
  end.

Definition literalRegex (pattern : string) : Regex.regex :=
  Regex.Alt
    (Regex.seqOf (Regex.Bol :: literals pattern ++ [Regex.Eol]))
    (Regex.Alt
       (Regex.seqOf (literals pattern ++ [Regex.Chr "/"]))
       (Regex.seqOf (Regex.Chr "/" :: literals pattern ++ [Regex.Eol]))).

Definition hasWildcard (pattern : string) : bool :=
  includes pattern "*" || includes pattern "?".

(** The ownership file is absent, or it is there and can be read. *)
Definition codeownersUsable (fs : node) (cwd : string) : Prop :=
  existsSync fs (CODEOWNERS_FILE cwd) = false
  \/ exists content, readFileSync fs (CODEOWNERS_FILE cwd) = Ok content.

(** What the content loop keeps of a list of files. *)
Definition fileMatches (fs : node) (searchTerm file : string) : bool :=
  match readFileSync fs file with
  | Ok content => includes (toLowerCase content) (toLowerCase searchTerm)
  | Throw _ => false
  end.

(** The text of a file given line by line. *)
Definition unlines (ls : list string) : string :=
  JsString.join (String LF EmptyString) ls.

(** A working directory [/repo] holding [repo]. *)
Definition inRepo (repo : list (string * node)) : node :=
  Dir true [("repo", Dir true repo)].

Definition codeowners (ls : list string) : string * node :=
  (".github", Dir true [("CODEOWNERS", File (Some (unlines ls)))]).

(** No [.gitignore]; a directory and a file owned by the same team. *)
Definition repoWithoutGitignore : node :=
  inRepo [codeowners ["src/ @team-a"; "README.md @team-a"];
          ("src", Dir true [("a.js", File (Some "TODO here"))]);
          ("README.md", File (Some "a TODO list"))].

(** [.github/CODEOWNERS] exists and cannot be read. *)
Definition repoUnreadableCodeowners : node :=
  inRepo [(".github", Dir true [("CODEOWNERS", File None)]);
          (".gitignore", File (Some "node_modules"))].

(** Two owned patterns that reach the same file. *)
Definition repoOverlap : node :=
  inRepo [codeowners ["src/ @team-a"; "/src/a.js @Team-A @team-b"];
          (".gitignore", File (Some "*.log"));
          ("src", Dir true [("a.js", File (Some "TODO here"));
                            ("b.js", File (Some "nothing"))])].

(** An owned file that [.gitignore] excludes. *)
Definition repoIgnoredFile : node :=
  inRepo [codeowners ["logs/ @ops"; "logs/debug.log @ops"];
          (".gitignore", File (Some "*.log"));
          ("logs", Dir true [("debug.log", File (Some "Todo: rotate"));
                             ("notes.txt", File (Some "todo later"))])].

(** The scenario of the README: one owned directory, test files excluded. *)
Definition repoScenario : node :=
  inRepo [codeowners ["# owners"; ""; "src/ @team-a"];
          (".gitignore", File (Some (unlines ["# tests"; "*.test.js"; ""])));
          ("src", Dir true [("a.js", File (Some "// TODO"));
                            ("a.test.js", File (Some "// TODO"))])].

(** A path token that carries the owner sigil, and a line without owners. *)
Definition repoOddLines : node :=
  inRepo [codeowners ["@scope/pkg @team-a"; "docs/  maintainers # nobody"]].

(** ** Vocabulary of the further properties *)

(** No character of [s] is white space. *)
Fixpoint noSpace (s : string) : bool :=
  match s with
  | EmptyString => true
  | String c rest => negb (is_space c) && noSpace rest
  end.

(** No character of [s] is a line feed. *)
Fixpoint oneLine (s : string) : bool :=
  match s with
  | EmptyString => true
  | String c rest => negb (Ascii.eqb c LF) && oneLine rest
  end.

(** The entries [parseCodeowners] builds from the text of the file. *)
Definition entriesOfText (content : string) : list entry :=
  fold_left parseLine (split LF content) [].

(** The lines [parseGitignore] keeps. *)
Definition keptPattern (line : string) : bool :=
  negb (line =? "")%string && negb (startsWith line "#").

(** The warnings of the content loop, one per file that cannot be read. *)
Definition readWarnings (fs : node) (files : list string) : list message :=
  flat_map (fun file =>
              match readFileSync fs file with
              | Ok _ => []
              | Throw e => [WarnCouldNotRead file e]
              end) files.

Definition isLogFile (m : message) : bool :=
  match m with LogFile _ => true | _ => false end.

(** What every parsed entry satisfies: a path token that is not empty, is not
    a comment and holds no white space, and owners that carry the sigil and
    hold no white space. *)
Definition wellFormedEntry (e : entry) : Prop :=
  path e <> ""
  /\ startsWith (path e) "#" = false
  /\ noSpace (path e) = true
  /\ Forall (fun o => startsWith o "@" = true /\ noSpace o = true) (owners e).

(** The lines the ownership parser passes over. *)
Definition skippedLine (line : string) : Prop :=
  trim line = ""
  \/ startsWith (trim line) "#" = true
  \/ List.length (split_ws (trim line)) < 2.

(** An owned directory with a file that matches and a subdirectory that
    cannot be listed; a second file that cannot be read. *)
Definition repoLocked : node :=
  inRepo [codeowners ["src/ @team-a"; "docs/ @team-a"];
          (".gitignore", File (Some "*.log"));
          ("src", Dir true [("a.js", File (Some "TODO here"));
                            ("locked", Dir false [])]);
          ("docs", Dir true [("a.md", File None);
                             ("b.md", File (Some "todo"))])].

(** The text that one character of a pattern becomes in the source of the
    regular expression. *)
Definition translate (c : ascii) : string :=
  if Ascii.eqb c "." then "\."
  else if Ascii.eqb c "*" then ".*"
  else if Ascii.eqb c "?" then "."
  else String c EmptyString.

Fixpoint translateAll (pattern : string) : string :=
  match pattern with
  | EmptyString => EmptyString
  | String c rest => (translate c ++ translateAll rest)%string
  end.

(** A pattern of plain characters, dots and the two wildcards. *)
Fixpoint globPattern (pattern : string) : bool :=
  match pattern with
  | EmptyString => true
  | String c rest =>
      (negb (Regex.isSyntaxCharacter c) || Ascii.eqb c "." || Ascii.eqb c "*"
       || Ascii.eqb c "?")
      && globPattern rest
  end.

Fixpoint noLineTerminator (s : string) : bool :=
  match s with
  | EmptyString => true
  | String c rest => negb (Regex.isLineTerminator c) && noLineTerminator rest
  end.

(** [Glob pattern s]: the text [s] is the pattern with each [*] replaced by
    a text without line terminators and each [?] by one character that is
    not a line terminator. *)
Inductive Glob : string -> string -> Prop :=
| GlobEnd : Glob EmptyString EmptyString
| GlobStar p x s :
    noLineTerminator x = true -> Glob p s ->
    Glob (String "*" p) (x ++ s)%string
| GlobAny p a s :
    Regex.isLineTerminator a = false -> Glob p s ->
    Glob (String "?" p) (String a s)
| GlobChar c p s :
    Ascii.eqb c "*" = false -> Ascii.eqb c "?" = false -> Glob p s ->
    Glob (String c p) (String c s).

Definition globTerm (c : ascii) : Regex.regex :=
  if Ascii.eqb c "*" then Regex.Star Regex.Any
  else if Ascii.eqb c "?" then Regex.Any
  else Regex.Chr c.

Fixpoint globTerms (pattern : string) : list Regex.regex :=
  match pattern with
  | EmptyString => []
  | String c rest => globTerm c :: globTerms rest
  end.

Definition globRegex (pattern : string) : Regex.regex :=
  Regex.Alt
    (Regex.seqOf (Regex.Bol :: globTerms pattern ++ [Regex.Eol]))
    (Regex.Alt
       (Regex.seqOf (globTerms pattern ++ [Regex.Chr "/"]))
       (Regex.seqOf (Regex.Chr "/" :: globTerms pattern ++ [Regex.Eol]))).

Fixpoint noSlash (s : string) : bool :=
  match s with
  | EmptyString => true
  | String c rest => negb (Ascii.eqb c "/") && noSlash rest
  end.

(** A path segment that names an entry: not empty, not [.] or [..], and
    without a separator. *)
Definition cleanSegment (seg : string) : bool :=
  negb (seg =? "")%string && negb (Path.is_dot seg)
  && negb (Path.is_dotdot seg) && noSlash seg.

(** * Properties *)

(** ** The primitives on small inputs *)

Example trim_strips_both_ends : trim (String "009" "  a b  ") = "a b".
Proof. reflexivity. Qed.

Example split_keeps_empty_lines :
  split LF (unlines ["a"; ""; "b"]) = ["a"; ""; "b"].
Proof. reflexivity. Qed.

Example split_ws_on_runs :
  split_ws "src/   @a  @b" = ["src/"; "@a"; "@b"]
  /\ split_ws " a " = [""; "a"; ""]
  /\ split_ws "" = [""].
Proof. repeat split; reflexivity. Qed.

Example toLowerCase_letters : toLowerCase "@Team-A/ToDo" = "@team-a/todo".
Proof. reflexivity. Qed.

Example join_keeps_trailing_separator :
  Path.join "/repo" "src/" = "/repo/src/"
  /\ Path.join "/repo/src/" "a.js" = "/repo/src/a.js"
  /\ Path.join "/repo" "" = "/repo"
  /\ Path.join "/repo" "../x/./y//z" = "/x/y/z".
Proof. repeat split; reflexivity. Qed.

Example relative_of_descendant_and_sibling :
  Path.relative "/repo" "/repo/src/a.js" = "src/a.js"
  /\ Path.relative "/repo" "/repo/src/" = "src"
  /\ Path.relative "/repo/a" "/repo/b/c" = "../b/c"
  /\ Path.relative "/repo" "/repo" = "".
Proof. repeat split; reflexivity. Qed.

Example regexSource_of_glob :
  regexSource "*.log" = "^.*\.log$|.*\.log/|/.*\.log$"
  /\ regexSource "a?c" = "^a.c$|a.c/|/a.c$".
Proof. split; reflexivity. Qed.

Example reference_quantifiers_and_groups :
  Regex.reference "^(ab)*c$" "ababc" = Some true
  /\ Regex.reference "^(ab)*c$" "abac" = Some false
  /\ Regex.reference "^a+?b?$" "aa" = Some true
  /\ Regex.reference "^(?:a|bc)+$" "bcabc" = Some true
  /\ Regex.reference "()*x" "x" = Some true
  /\ Regex.reference "a.c" (String "a" (String LF "c")) = Some false
  /\ Regex.reference "a**" "a" = None
  /\ Regex.reference "(a" "a" = None
  /\ Regex.reference "a)" "a" = None.
Proof.
  repeat match goal with |- _ /\ _ => split end; vm_compute; reflexivity.
Qed.

Example lookup_demands_directory_before_separator :
  existsSync repoScenario "/repo/src/" = true
  /\ existsSync repoScenario "/repo/src/a.js" = true
  /\ existsSync repoScenario "/repo/src/a.js/" = false
  /\ existsSync repoScenario "/repo/.github/CODEOWNERS" = true
  /\ existsSync repoScenario "/repo/lib" = false.
Proof. repeat split; reflexivity. Qed.

(** The end-to-end scenario: [src/ @team-a], [*.test.js] ignored, both files
    contain the term; the run reports [src/a.js] alone. *)
Example scenario_reports_the_source_file :
  main Regex.reference repoScenario "/repo" ["TODO"; "@team-a"] =
    ([LogSearchingFor "TODO" "@team-a";
      LogParsed 1 "/repo/.github/CODEOWNERS";
      LogSearchingInPath "src/";
      LogFound 1 "TODO" "@team-a";
      LogFilesFound 1;
      LogFile "src/a.js";
      LogCommaSeparated "src/a.js"],
     Completed)
  /\ parseGitignore repoScenario "/repo" = Ok ["*.test.js"]
  /\ main Regex.reference repoScenario "/repo" ["TODO"; "@team-b"] =
       ([LogSearchingFor "TODO" "@team-b";
         LogParsed 1 "/repo/.github/CODEOWNERS";
         LogFound 0 "TODO" "@team-b";
         LogNoFiles],
        Completed)
  /\ main Regex.reference repoScenario "/repo" [] =
       ([LogUsage; LogExample], Exited 1).
Proof.
  repeat match goal with |- _ /\ _ => split end; vm_compute; reflexivity.
Qed.

(** ** Strings *)

Lemma append_empty_r (s : string) : (s ++ "")%string = s.
Proof. induction s as [| c s IH]; simpl; [reflexivity | now rewrite IH]. Qed.

Lemma append_assoc (a b c : string) :
  ((a ++ b) ++ c)%string = (a ++ b ++ c)%string.
Proof. induction a as [| x a IH]; simpl; [reflexivity | now rewrite IH]. Qed.

Lemma prefix_spec (p s : string) :
  String.prefix p s = true <-> exists rest, s = (p ++ rest)%string.
Proof.
  revert s; induction p as [| c p IH]; intros s.
  - split; [intros _; now exists s | intros _; now destruct s].
  - destruct s as [| d s]; simpl.
    + split; [discriminate | intros [rest H]; discriminate].
    + destruct (ascii_dec c d) as [-> | Hne].
      * rewrite IH. split; intros [rest H]; exists rest.
        -- now rewrite H.
        -- now injection H.
      * split; [discriminate |].
        intros [rest H]. injection H as H1 _. now elim Hne.
Qed.

Lemma includes_spec (s t : string) : includes s t = true <-> occursIn t s.
Proof.
  unfold occursIn. induction s as [| c s IH].
  - cbn [includes]. rewrite orb_false_r, prefix_spec. split.
    + intros [rest H]. now exists EmptyString, rest.
    + intros [[| x pre] [post H]]; [now exists post | discriminate].
  - cbn [includes]. rewrite orb_true_iff, prefix_spec, IH. split.
    + intros [[rest H] | [pre [post H]]].
      * now exists EmptyString, rest.
      * exists (String c pre), post. simpl. now rewrite H.
    + intros [[| x pre] [post H]].
      * left. now exists post.
      * right. simpl in H. injection H as _ H. now exists pre, post.
Qed.

(** ** Sets in insertion order *)

Lemma Set_add_In (s : list string) (x y : string) :
  In y (Set_add s x) <-> In y s \/ y = x.
Proof.
  unfold Set_add. destruct (existsb (String.eqb x) s) eqn:Hx.
  - apply existsb_exists in Hx as [z [Hz Heq]].
    apply String.eqb_eq in Heq; subst z. intuition (subst; auto).
  - rewrite in_app_iff. simpl. intuition auto.
Qed.

Lemma Set_add_NoDup (s : list string) (x : string) :
  NoDup s -> NoDup (Set_add s x).
Proof.
  intros Hs. unfold Set_add. destruct (existsb (String.eqb x) s) eqn:Hx; auto.
  apply NoDup_app; [assumption | repeat constructor; auto |].
  intros y Hy [Heq | []]. subst y.
  assert (existsb (String.eqb x) s = true) as H; [| congruence].
  apply existsb_exists. exists x. now rewrite String.eqb_refl.
Qed.

Lemma fold_Set_add_In (xs s : list string) (y : string) :
  In y (fold_left Set_add xs s) <-> In y s \/ In y xs.
Proof.
  revert s; induction xs as [| x xs IH]; intros s; simpl.
  - intuition auto.
  - rewrite IH, Set_add_In. intuition auto.
Qed.

Lemma fold_Set_add_NoDup (xs s : list string) :
  NoDup s -> NoDup (fold_left Set_add xs s).
Proof.
  revert s; induction xs as [| x xs IH]; intros s Hs; simpl; auto.
  apply IH, Set_add_NoDup, Hs.
Qed.

(** ** The ownership parser *)

Lemma parseLine_extends (entries : list entry) (line : string) :
  exists more, parseLine entries line = entries ++ more.
Proof.
  unfold parseLine.
  destruct (startsWith _ _ || _); [exists []; now rewrite app_nil_r |].
  destruct (_ <? _)%nat; [exists []; now rewrite app_nil_r |].
  eexists; reflexivity.
Qed.

Lemma fold_parseLine_extends (ls : list string) (entries : list entry) :
  exists more, fold_left parseLine ls entries = entries ++ more.
Proof.
  revert entries; induction ls as [| l ls IH]; intros entries; simpl.
  - exists []; now rewrite app_nil_r.
  - destruct (parseLine_extends entries l) as [m1 ->].
    destruct (IH (entries ++ m1)) as [m2 ->].
    exists (m1 ++ m2). now rewrite app_assoc.
Qed.

Lemma fold_parseLine_In (ls : list string) (entries : list entry)
  (line : string) (e : entry) :
  In line ls ->
  (forall acc, parseLine acc line = acc ++ [e]) ->
  In e (fold_left parseLine ls entries).
Proof.
  intros Hin Hline. revert entries Hin.
  induction ls as [| l ls IH]; intros entries Hin; [destruct Hin |].
  destruct Hin as [Heq | Hin].
  - subst l. simpl. rewrite Hline.
    destruct (fold_parseLine_extends ls (entries ++ [e])) as [m ->].
    rewrite !in_app_iff. simpl. auto.
  - simpl. now apply IH.
Qed.

Lemma filter_none {A} (f : A -> bool) (l : list A) :
  (forall x, In x l -> f x = false) -> filter f l = [].
Proof.
  induction l as [| a l IH]; intros H; simpl; [reflexivity |].
  rewrite (H a) by (simpl; auto). apply IH. intros x Hx. apply H. simpl; auto.
Qed.

(** When the path token does not carry the sigil, the owners are the
    sigil-prefixed tokens after it, in order. *)
Lemma parseLine_owners_after_path (entries : list entry) (line : string) :
  let parts := split_ws (trim line) in
  startsWith (trim line) "#" = false ->
  2 <= List.length parts ->
  startsWith (hd "" parts) "@" = false ->
  parseLine entries line =
    entries ++ [{| path := hd "" parts;
                   owners := filter (fun t => startsWith t "@") (tl parts) |}].
Proof.
  intros parts Hc Hlen Hp. unfold parseLine. rewrite Hc.
  destruct (trim line =? "")%string eqn:He.
  - apply String.eqb_eq in He. subst parts. rewrite He in Hlen.
    simpl in Hlen. lia.
  - simpl. fold parts. destruct (Nat.ltb_spec (List.length parts) 2); [lia |].
    destruct parts as [| t ts]; [simpl in Hlen; lia |].
    simpl in *. now rewrite Hp.
Qed.

(** C3.  The owners of an entry are taken from every token of the line, the
    path token included: on the line [@scope/pkg @team-a] the path
    [@scope/pkg] is listed among the owners, and a search for the team
    [@scope/pkg] selects the entry. *)
Theorem path_token_with_sigil_is_listed_as_owner :
  parseCodeowners repoOddLines (CODEOWNERS_FILE "/repo") =
    ([LogParsed 2 "/repo/.github/CODEOWNERS"],
     Ok [{| path := "@scope/pkg"; owners := ["@scope/pkg"; "@team-a"] |};
         {| path := "docs/"; owners := [] |}])
  /\ parseLine [] "@scope/pkg @team-a" =
       [{| path := "@scope/pkg"; owners := ["@scope/pkg"; "@team-a"] |}]
  /\ ownedBy "@scope/pkg"
       {| path := "@scope/pkg"; owners := ["@scope/pkg"; "@team-a"] |} = true.
Proof. repeat split; vm_compute; reflexivity. Qed.

(** C10.  A line with at least two tokens and no sigil-prefixed token is not
    skipped: the parser returns an entry for it with an empty owner list, the
    entry is counted in the total the parser reports, and no team owns it. *)
Theorem ownerless_line_yields_unowned_entry :
  forall (fs : node) (filePath content line : string),
    readFileSync fs filePath = Ok content ->
    In line (split LF content) ->
    startsWith (trim line) "#" = false ->
    2 <= List.length (split_ws (trim line)) ->
    (forall t, In t (split_ws (trim line)) -> startsWith t "@" = false) ->
    let e := {| path := hd "" (split_ws (trim line)); owners := [] |} in
    exists entries,
      parseCodeowners fs filePath =
        ([LogParsed (List.length entries) filePath], Ok entries)
      /\ In e entries
      /\ forall team, ownedBy team e = false.
Proof.
  intros fs filePath content line Hread Hin Hc Hlen Hno e.
  exists (fold_left parseLine (split LF content) []).
  split; [| split].
  - unfold parseCodeowners.
    assert (existsSync fs filePath = true) as ->.
    { unfold existsSync. unfold readFileSync in Hread.
      now destruct (lookup fs filePath). }
    rewrite Hread. reflexivity.
  - apply fold_parseLine_In with (line := line); [assumption |].
    intros acc. rewrite parseLine_owners_after_path; try assumption.
    + subst e. do 3 f_equal. apply filter_none.
      intros t Ht. apply Hno.
      destruct (split_ws (trim line)); simpl in *; auto.
    + apply Hno. destruct (split_ws (trim line)); simpl in *; [lia | auto].
  - intros team. reflexivity.
Qed.

Lemma ownerless_line_witness :
  exists entries,
    parseCodeowners repoOddLines "/repo/.github/CODEOWNERS" =
      ([LogParsed (List.length entries) "/repo/.github/CODEOWNERS"], Ok entries)
    /\ In {| path := hd "" (split_ws (trim "docs/  maintainers # nobody"));
             owners := [] |} entries
    /\ forall team,
         ownedBy team
           {| path := hd "" (split_ws (trim "docs/  maintainers # nobody"));
              owners := [] |} = false.
Proof.
  apply (ownerless_line_yields_unowned_entry repoOddLines
           "/repo/.github/CODEOWNERS"
           (unlines ["@scope/pkg @team-a"; "docs/  maintainers # nobody"])
           "docs/  maintainers # nobody").
  - vm_compute; reflexivity.
  - vm_compute; auto.
  - vm_compute; reflexivity.
  - vm_compute. repeat constructor.
  - intros t Ht. vm_compute in Ht.
    repeat (destruct Ht as [<- | Ht]; [reflexivity |]). destruct Ht.
Defined.

(** ** The content search *)

Section Search.

Variable RegExp_test : string -> string -> option bool.
Variable fs : node.
Variable cwd : string.

Lemma scanFiles_result (searchTerm : string) (files matchingFiles : list string) :
  snd (scanFiles fs cwd searchTerm files matchingFiles) =
    matchingFiles
      ++ map (Path.relative cwd) (filter (fileMatches fs searchTerm) files).
Proof.
  revert matchingFiles; induction files as [| f files IH]; intros acc; simpl.
  - now rewrite app_nil_r.
  - unfold fileMatches at 1. destruct (readFileSync fs f) as [content | e].
    + destruct (includes _ _); [| apply IH].
      rewrite IH, <- app_assoc. reflexivity.
    + specialize (IH acc).
      destruct (scanFiles fs cwd searchTerm files acc). exact IH.
Qed.

Lemma lookup_exists (p : string) (n : node) :
  lookup fs p = Some n -> existsSync fs p = true /\ statSync fs p = Ok n.
Proof. intros H. unfold existsSync, statSync. now rewrite H. Qed.

Lemma searchInFiles_file (basePath searchTerm : string) (text : option string) :
  lookup fs (Path.join cwd (stripLeadingSlash basePath)) = Some (File text) ->
  snd (searchInFiles RegExp_test fs cwd basePath searchTerm) =
    map (Path.relative cwd)
      (filter (fileMatches fs searchTerm)
         [Path.join cwd (stripLeadingSlash basePath)]).
Proof.
  intros H. unfold searchInFiles.
  destruct (lookup_exists _ _ H) as [-> ->]. simpl.
  unfold fileMatches.
  destruct (readFileSync fs _) as [content | e]; [| reflexivity].
  now destruct (includes _ _).
Qed.

Lemma searchInFiles_directory (basePath searchTerm : string) (readable : bool)
  (entries : list (string * node)) :
  lookup fs (Path.join cwd (stripLeadingSlash basePath)) =
    Some (Dir readable entries) ->
  searchInFiles RegExp_test fs cwd basePath searchTerm =
    match getAllFiles RegExp_test fs cwd
            (Path.join cwd (stripLeadingSlash basePath)) [] None with
    | Throw err => ([ErrSearching basePath err], [])
    | Ok files => scanFiles fs cwd searchTerm files []
    end.
Proof.
  intros H. unfold searchInFiles.
  destruct (lookup_exists _ _ H) as [-> ->]. reflexivity.
Qed.

Lemma searchInFiles_missing (basePath searchTerm : string) :
  lookup fs (Path.join cwd (stripLeadingSlash basePath)) = None ->
  searchInFiles RegExp_test fs cwd basePath searchTerm =
    ([WarnPathDoesNotExist (Path.join cwd (stripLeadingSlash basePath))], []).
Proof.
  intros H. unfold searchInFiles, existsSync. now rewrite H.
Qed.

(** What [searchInFiles] reports, whatever the base path names. *)
Lemma searchInFiles_reports (basePath searchTerm reported : string) :
  In reported (snd (searchInFiles RegExp_test fs cwd basePath searchTerm)) <->
  exists file,
    candidate RegExp_test fs cwd basePath file
    /\ reported = Path.relative cwd file
    /\ fileMatches fs searchTerm file = true.
Proof.
  unfold candidate.
  destruct (lookup fs (Path.join cwd (stripLeadingSlash basePath)))
    as [[text | readable entries] |] eqn:Hl.
  - rewrite (searchInFiles_file _ _ _ Hl). rewrite in_map_iff. split.
    + intros [file [Hrel Hin]]. apply filter_In in Hin as [[<- | []] Hm].
      exists (Path.join cwd (stripLeadingSlash basePath)).
      repeat split; eauto.
    + intros [file [[[t [_ ->]] | [r [es [fl [Hd _]]]]] [-> Hm]]];
        [| discriminate].
      eexists; split; [reflexivity |]. apply filter_In. simpl; auto.
  - rewrite (searchInFiles_directory _ _ _ _ Hl).
    destruct (getAllFiles _ _ _ _ _ _) as [files | e] eqn:Hg.
    + rewrite scanFiles_result. simpl. rewrite in_map_iff. split.
      * intros [file [Hrel Hin]]. apply filter_In in Hin as [Hin Hm].
        exists file. split; [| now split].
        right. now exists readable, entries, files.
      * intros [file [[[t [Hd _]] | [r [es [fl [_ [Hf Hin]]]]]] [-> Hm]]];
          [discriminate |].
        injection Hf as <-. exists file. split; [reflexivity |].
        now apply filter_In.
    + simpl. split; [intros [] |].
      intros [file [[[t [Hd _]] | [r [es [fl [_ [Hf _]]]]]] _]]; discriminate.
  - rewrite (searchInFiles_missing _ _ Hl). simpl. split; [intros [] |].
    intros [file [[[t [Hd _]] | [r [es [fl [Hd _]]]]] _]]; discriminate.
Qed.

(** ** Collecting the results of the owned entries *)

Lemma searchEntries_NoDup (searchTerm team : string) (allEntries : list entry)
  (matchingFiles : list string) :
  NoDup matchingFiles ->
  NoDup (snd (searchEntries RegExp_test fs cwd searchTerm team allEntries
                matchingFiles)).
Proof.
  revert matchingFiles; induction allEntries as [| e rest IH]; intros acc Hacc.
  - exact Hacc.
  - simpl. destruct (ownedBy team e); [| now apply IH].
    destruct (searchInFiles _ _ _ _ _) as [out found].
    specialize (IH (fold_left Set_add found acc)
                  (fold_Set_add_NoDup found acc Hacc)).
    now destruct (searchEntries _ _ _ _ _ rest _).
Qed.

Lemma searchEntries_keeps (searchTerm team : string) (allEntries : list entry)
  (matchingFiles : list string) (file : string) :
  In file matchingFiles ->
  In file (snd (searchEntries RegExp_test fs cwd searchTerm team allEntries
                  matchingFiles)).
Proof.
  revert matchingFiles; induction allEntries as [| e rest IH]; intros acc Hin.
  - exact Hin.
  - simpl. destruct (ownedBy team e); [| now apply IH].
    destruct (searchInFiles _ _ _ _ _) as [out found].
    specialize (IH (fold_left Set_add found acc)).
    destruct (searchEntries _ _ _ _ _ rest _). apply IH.
    apply fold_Set_add_In. now left.
Qed.

Lemma searchEntries_collects (searchTerm team : string)
  (allEntries : list entry) (matchingFiles : list string) (e : entry)
  (file : string) :
  In e allEntries ->
  ownedBy team e = true ->
  In file (snd (searchInFiles RegExp_test fs cwd (normalizedPath e) searchTerm)) ->
  In file (snd (searchEntries RegExp_test fs cwd searchTerm team allEntries
                  matchingFiles)).
Proof.
  intros Hin Hown Hfile. revert matchingFiles Hin.
  induction allEntries as [| e' rest IH]; intros acc Hin; [destruct Hin |].
  destruct Hin as [-> | Hin].
  - simpl. rewrite Hown.
    destruct (searchInFiles _ _ _ _ _) as [out found]. simpl in Hfile.
    pose proof (searchEntries_keeps searchTerm team rest
                  (fold_left Set_add found acc) file) as Hk.
    destruct (searchEntries _ _ _ _ _ rest _). apply Hk.
    apply fold_Set_add_In. now right.
  - simpl. destruct (ownedBy team e'); [| now apply IH].
    destruct (searchInFiles _ _ _ (normalizedPath e') _) as [out found].
    specialize (IH (fold_left Set_add found acc) Hin).
    now destruct (searchEntries _ _ _ _ _ rest _).
Qed.

Lemma findCodeownersPaths_returns (searchTerm team : string)
  (out0 : list message) (allEntries : list entry) :
  parseCodeowners fs (CODEOWNERS_FILE cwd) = (out0, Ok allEntries) ->
  exists out,
    findCodeownersPaths RegExp_test fs cwd searchTerm team =
      (out, Ok (snd (searchEntries RegExp_test fs cwd searchTerm team
                       allEntries []))).
Proof.
  intros H. unfold findCodeownersPaths. rewrite H. simpl.
  destruct (searchEntries _ _ _ _ _ _ _) as [out found]. simpl.
  eexists; reflexivity.
Qed.

Lemma parseCodeowners_usable :
  codeownersUsable fs cwd ->
  exists out allEntries,
    parseCodeowners fs (CODEOWNERS_FILE cwd) = (out, Ok allEntries).
Proof.
  intros [Habsent | [content Hread]]; unfold parseCodeowners.
  - rewrite Habsent. simpl. eexists _, _; reflexivity.
  - assert (existsSync fs (CODEOWNERS_FILE cwd) = true) as ->.
    { unfold existsSync. unfold readFileSync in Hread.
      now destruct (lookup fs (CODEOWNERS_FILE cwd)). }
    rewrite Hread. simpl. eexists _, _; reflexivity.
Qed.

End Search.

(** ** The claims about the search pipeline *)

(** C5.  The content search is case-insensitive: a path is reported exactly
    when it is the relative path of a file the search reads whose lower-cased
    content contains the lower-cased search term as a substring.  A search
    for [todo] finds a file containing [TODO], and a search for [TODO] finds
    a file containing [todo]. *)
Theorem content_search_is_case_insensitive :
  (forall RegExp_test fs cwd basePath searchTerm reported,
      In reported (snd (searchInFiles RegExp_test fs cwd basePath searchTerm)) <->
      exists file content,
        candidate RegExp_test fs cwd basePath file
        /\ reported = Path.relative cwd file
        /\ readFileSync fs file = Ok content
        /\ occursIn (toLowerCase searchTerm) (toLowerCase content))
  /\ searchInFiles Regex.reference repoWithoutGitignore "/repo" "README.md" "todo"
     = ([], ["README.md"])
  /\ searchInFiles Regex.reference repoIgnoredFile "/repo" "logs/notes.txt" "TODO"
     = ([], ["logs/notes.txt"])
  /\ searchInFiles Regex.reference repoOverlap "/repo" "src/" "todo"
     = ([], ["src/a.js"]).
Proof.
  split; [| repeat split; vm_compute; reflexivity].
  intros E fs cwd basePath searchTerm reported.
  rewrite searchInFiles_reports. split.
  - intros [file [Hc [Hr Hm]]]. unfold fileMatches in Hm.
    destruct (readFileSync fs file) as [content | e] eqn:Hread; [| discriminate].
    exists file, content. repeat split; auto. now apply includes_spec.
  - intros [file [content [Hc [Hr [Hread Hocc]]]]].
    exists file. repeat split; auto.
    unfold fileMatches. rewrite Hread. now apply includes_spec.
Qed.

(** C7.  The result is deduplicated: when two entries owned by the requested
    team both lead the search to a file, [findCodeownersPaths] returns a list
    in which that file occurs exactly once. *)
Theorem overlapping_entries_report_a_file_once :
  forall RegExp_test fs cwd searchTerm team out0 allEntries e1 e2 file,
    parseCodeowners fs (CODEOWNERS_FILE cwd) = (out0, Ok allEntries) ->
    In e1 allEntries ->
    In e2 allEntries ->
    ownedBy team e1 = true ->
    ownedBy team e2 = true ->
    In file (snd (searchInFiles RegExp_test fs cwd (normalizedPath e1) searchTerm)) ->
    In file (snd (searchInFiles RegExp_test fs cwd (normalizedPath e2) searchTerm)) ->
    exists out results,
      findCodeownersPaths RegExp_test fs cwd searchTerm team = (out, Ok results)
      /\ count_occ string_dec results file = 1.
Proof.
  intros E fs cwd searchTerm team out0 allEntries e1 e2 file
    Hparse Hin1 _ Hown1 _ Hfile1 _.
  destruct (findCodeownersPaths_returns E fs cwd searchTerm team _ _ Hparse)
    as [out Hret].
  exists out, (snd (searchEntries E fs cwd searchTerm team allEntries [])).
  split; [exact Hret |].
  apply NoDup_count_occ'.
  - apply searchEntries_NoDup. constructor.
  - now apply searchEntries_collects with (e := e1).
Qed.

Lemma overlapping_entries_witness :
  exists out results,
    findCodeownersPaths Regex.reference repoOverlap "/repo" "todo" "@team-a"
      = (out, Ok results)
    /\ count_occ string_dec results "src/a.js" = 1.
Proof.
  apply (overlapping_entries_report_a_file_once Regex.reference repoOverlap
           "/repo" "todo" "@team-a"
           [LogParsed 2 "/repo/.github/CODEOWNERS"]
           [{| path := "src/"; owners := ["@team-a"] |};
            {| path := "/src/a.js"; owners := ["@Team-A"; "@team-b"] |}]
           {| path := "src/"; owners := ["@team-a"] |}
           {| path := "/src/a.js"; owners := ["@Team-A"; "@team-b"] |}
           "src/a.js").
  - vm_compute; reflexivity.
  - simpl; auto.
  - simpl; auto.
  - vm_compute; reflexivity.
  - vm_compute; reflexivity.
  - vm_compute; auto.
  - vm_compute; auto.
Defined.

(** C6, as the script has it.  With fewer than two arguments the script
    prints the usage text and exits with status 1, whatever the file system
    holds.  With two or more arguments, and an ownership file that is absent
    or can be read, the script runs to its end and the exit status is 0,
    whatever the search finds and whatever fails inside it. *)
Theorem exit_status_by_argument_count :
  forall RegExp_test fs cwd args,
    (List.length args < 2 ->
     main RegExp_test fs cwd args = ([LogUsage; LogExample], Exited 1)
     /\ exitStatus (snd (main RegExp_test fs cwd args)) = 1)
    /\ (2 <= List.length args ->
        codeownersUsable fs cwd ->
        snd (main RegExp_test fs cwd args) = Completed
        /\ exitStatus (snd (main RegExp_test fs cwd args)) = 0).
Proof.
  intros E fs cwd args. unfold main.
  destruct (Nat.ltb_spec (List.length args) 2) as [Hlt | Hge].
  - split; [intros _; split; reflexivity | intros H; lia].
  - split; [intros H; lia |]. intros _ Hco.
    destruct (parseCodeowners_usable fs cwd Hco) as [out0 [allEntries Hparse]].
    destruct (findCodeownersPaths_returns E fs cwd (nth 0 args "")
                (nth 1 args "") _ _ Hparse) as [out ->].
    split; reflexivity.
Qed.

Lemma exit_status_witness :
  (main Regex.reference repoUnreadableCodeowners "/repo" ["TODO"] =
     ([LogUsage; LogExample], Exited 1)
   /\ exitStatus
        (snd (main Regex.reference repoUnreadableCodeowners "/repo" ["TODO"]))
      = 1)
  /\ (snd (main Regex.reference repoWithoutGitignore "/repo"
             ["nowhere"; "@nobody"]) = Completed
      /\ exitStatus
           (snd (main Regex.reference repoWithoutGitignore "/repo"
                   ["nowhere"; "@nobody"])) = 0).
Proof.
  split.
  - apply (proj1 (exit_status_by_argument_count Regex.reference
                    repoUnreadableCodeowners "/repo" ["TODO"])).
    simpl. lia.
  - apply (proj2 (exit_status_by_argument_count Regex.reference
                    repoWithoutGitignore "/repo" ["nowhere"; "@nobody"])).
    + simpl. lia.
    + right. eexists. vm_compute. reflexivity.
Defined.

(** C6, as the claim has it, fails: with two arguments and an ownership file
    that exists and cannot be read, the read error is not caught and the
    status is 1. *)
Lemma unreadable_codeowners_exits_nonzero :
  main Regex.reference repoUnreadableCodeowners "/repo" ["TODO"; "@team-a"] =
    ([LogSearchingFor "TODO" "@team-a"],
     Uncaught (EACCES "/repo/.github/CODEOWNERS"))
  /\ exitStatus
       (snd (main Regex.reference repoUnreadableCodeowners "/repo"
               ["TODO"; "@team-a"])) = 1.
Proof. split; vm_compute; reflexivity. Qed.

(** C1, as the script has it.  When the ignore file cannot be read, the
    search of an owned directory catches the read error: it logs the error
    and contributes no file, and the loop over the entries goes on with the
    entries that follow. *)
Theorem gitignore_failure_is_caught_by_search :
  forall RegExp_test fs cwd searchTerm team e rest matchingFiles err
         readable entries,
    parseGitignore fs cwd = Throw err ->
    ownedBy team e = true ->
    lookup fs (Path.join cwd (stripLeadingSlash (normalizedPath e))) =
      Some (Dir readable entries) ->
    searchInFiles RegExp_test fs cwd (normalizedPath e) searchTerm =
      ([ErrSearching (normalizedPath e) err], [])
    /\ searchEntries RegExp_test fs cwd searchTerm team (e :: rest) matchingFiles =
         (LogSearchingInPath (path e)
            :: ErrSearching (normalizedPath e) err
            :: fst (searchEntries RegExp_test fs cwd searchTerm team rest
                      matchingFiles),
          snd (searchEntries RegExp_test fs cwd searchTerm team rest
                 matchingFiles)).
Proof.
  intros E fs cwd searchTerm team e rest acc err readable entries
    Hgit Hown Hdir.
  assert (searchInFiles E fs cwd (normalizedPath e) searchTerm =
            ([ErrSearching (normalizedPath e) err], [])) as Hs.
  { rewrite (searchInFiles_directory _ _ _ _ _ _ _ Hdir).
    unfold getAllFiles. now rewrite Hgit. }
  split; [exact Hs |].
  simpl. rewrite Hown, Hs. simpl.
  now destruct (searchEntries E fs cwd searchTerm team rest acc).
Qed.

Lemma gitignore_failure_witness :
  searchInFiles Regex.reference repoWithoutGitignore "/repo" "src/" "todo" =
    ([ErrSearching "src/" (ENOENT "/repo/.gitignore")], [])
  /\ searchEntries Regex.reference repoWithoutGitignore "/repo" "todo" "@team-a"
       [{| path := "src/"; owners := ["@team-a"] |};
        {| path := "README.md"; owners := ["@team-a"] |}] [] =
       (LogSearchingInPath "src/"
          :: ErrSearching "src/" (ENOENT "/repo/.gitignore")
          :: fst (searchEntries Regex.reference repoWithoutGitignore "/repo"
                    "todo" "@team-a"
                    [{| path := "README.md"; owners := ["@team-a"] |}] []),
        snd (searchEntries Regex.reference repoWithoutGitignore "/repo"
               "todo" "@team-a"
               [{| path := "README.md"; owners := ["@team-a"] |}] [])).
Proof.
  apply (gitignore_failure_is_caught_by_search Regex.reference
           repoWithoutGitignore "/repo" "todo" "@team-a"
           {| path := "src/"; owners := ["@team-a"] |}
           [{| path := "README.md"; owners := ["@team-a"] |}] []
           (ENOENT "/repo/.gitignore") true
           [("a.js", File (Some "TODO here"))]);
    vm_compute; reflexivity.
Defined.

(** C1, as the claim has it, fails: without a [.gitignore], with two
    arguments and an owned directory, the run is not terminated by the read
    error; the entry that follows is searched and its file is reported. *)
Lemma missing_gitignore_does_not_stop_the_run :
  parseGitignore repoWithoutGitignore "/repo" = Throw (ENOENT "/repo/.gitignore")
  /\ main Regex.reference repoWithoutGitignore "/repo" ["todo"; "@team-a"] =
       ([LogSearchingFor "todo" "@team-a";
         LogParsed 2 "/repo/.github/CODEOWNERS";
         LogSearchingInPath "src/";
         ErrSearching "src/" (ENOENT "/repo/.gitignore");
         LogSearchingInPath "README.md";
         LogFound 1 "todo" "@team-a";
         LogFilesFound 1;
         LogFile "README.md";
         LogCommaSeparated "README.md"],
        Completed).
Proof. split; vm_compute; reflexivity. Qed.

(** ** The walk prunes what the patterns exclude *)

Lemma node_induction (P : node -> Prop) :
  (forall text, P (File text)) ->
  (forall readable entries,
      Forall (fun e => P (snd e)) entries -> P (Dir readable entries)) ->
  forall n, P n.
Proof.
  intros HF HD. fix IH 1. intros [text | readable entries].
  - apply HF.
  - apply HD. induction entries as [| [name x] rest IHrest]; constructor.
    + apply IH.
    + apply IHrest.
Qed.

Lemma getAllFilesIn_not_ignored (RegExp_test : string -> string -> option bool)
  (cwd : string) (patterns : list string) (dir : node) :
  forall dirPath arrayOfFiles files,
    getAllFilesIn RegExp_test cwd patterns dirPath dir arrayOfFiles = Ok files ->
    forall f, In f files ->
      In f arrayOfFiles \/ isIgnored RegExp_test cwd f patterns = Ok false.
Proof.
  induction dir as [text | readable entries IH] using node_induction;
    intros dirPath acc files Hwalk f Hf.
  - discriminate.
  - destruct readable; [| discriminate]. simpl in Hwalk.
    revert acc files Hwalk f Hf.
    induction IH as [| [name x] rest Hx _ IHrest]; intros acc files Hwalk f Hf.
    + injection Hwalk as <-. now left.
    + destruct (isIgnored RegExp_test cwd (Path.join dirPath name) patterns)
        as [[|] | e] eqn:Hig; [| | discriminate].
      * now apply (IHrest acc files).
      * destruct x as [text | r es].
        -- destruct (IHrest _ _ Hwalk f Hf) as [Hin | Hok]; [| now right].
           apply in_app_iff in Hin as [Hin | [<- | []]]; [now left | now right].
        -- simpl in Hx.
           destruct (getAllFilesIn RegExp_test cwd patterns
                       (Path.join dirPath name) (Dir r es) acc)
             as [acc' |] eqn:Hsub; [| discriminate].
           destruct (IHrest _ _ Hwalk f Hf) as [Hin | Hok]; [| now right].
           exact (Hx _ _ _ Hsub f Hin).
Qed.

(** Every file the walk returns passed the ignore test. *)
Lemma getAllFiles_not_ignored (RegExp_test : string -> string -> option bool)
  (fs : node) (cwd dirPath : string) (patterns files : list string) :
  parseGitignore fs cwd = Ok patterns ->
  getAllFiles RegExp_test fs cwd dirPath [] None = Ok files ->
  forall f, In f files -> isIgnored RegExp_test cwd f patterns = Ok false.
Proof.
  intros Hgit Hwalk f Hf. unfold getAllFiles in Hwalk. rewrite Hgit in Hwalk.
  destruct (lookup fs dirPath) as [dir |]; [| discriminate].
  destruct (getAllFilesIn_not_ignored _ _ _ _ _ _ _ Hwalk f Hf) as [[] | H].
  exact H.
Qed.

(** C9.  The ignore patterns are applied by the directory walk only.  A
    regular file whose path the patterns exclude is never returned by a
    walk; yet when an entry names it, the file is read and its content is
    tested for the search term: it is reported exactly when the lower-cased
    content contains the lower-cased term, and a file that cannot be read
    yields a warning and no result. *)
Theorem ignored_file_named_by_entry_is_searched :
  forall RegExp_test fs cwd basePath searchTerm patterns text,
    parseGitignore fs cwd = Ok patterns ->
    isIgnored RegExp_test cwd (Path.join cwd (stripLeadingSlash basePath))
      patterns = Ok true ->
    lookup fs (Path.join cwd (stripLeadingSlash basePath)) = Some (File text) ->
    searchInFiles RegExp_test fs cwd basePath searchTerm =
      match text with
      | Some content =>
          ([],
           if includes (toLowerCase content) (toLowerCase searchTerm)
           then [Path.relative cwd (Path.join cwd (stripLeadingSlash basePath))]
           else [])
      | None =>
          ([WarnCouldNotRead (Path.join cwd (stripLeadingSlash basePath))
              (EACCES (Path.join cwd (stripLeadingSlash basePath)))], [])
      end
    /\ forall dirPath files,
         getAllFiles RegExp_test fs cwd dirPath [] None = Ok files ->
         ~ In (Path.join cwd (stripLeadingSlash basePath)) files.
Proof.
  intros E fs cwd basePath searchTerm patterns text Hgit Hig Hfile. split.
  - unfold searchInFiles.
    destruct (lookup_exists _ _ _ Hfile) as [-> ->]. simpl.
    unfold readFileSync. rewrite Hfile.
    destruct text as [content |]; simpl; [| reflexivity].
    now destruct (includes _ _).
  - intros dirPath files Hwalk Hin.
    pose proof (getAllFiles_not_ignored _ _ _ _ _ _ Hgit Hwalk _ Hin) as Hno.
    congruence.
Qed.

Lemma ignored_file_witness :
  (searchInFiles Regex.reference repoIgnoredFile "/repo" "logs/debug.log" "TODO" =
     ([],
      if includes (toLowerCase "Todo: rotate") (toLowerCase "TODO")
      then [Path.relative "/repo"
              (Path.join "/repo" (stripLeadingSlash "logs/debug.log"))]
      else [])
   /\ forall dirPath files,
        getAllFiles Regex.reference repoIgnoredFile "/repo" dirPath [] None
          = Ok files ->
        ~ In (Path.join "/repo" (stripLeadingSlash "logs/debug.log")) files)
  /\ (searchInFiles Regex.reference repoIgnoredFile "/repo" "logs/debug.log"
        "rotate later" =
        ([],
         if includes (toLowerCase "Todo: rotate") (toLowerCase "rotate later")
         then [Path.relative "/repo"
                 (Path.join "/repo" (stripLeadingSlash "logs/debug.log"))]
         else [])
      /\ forall dirPath files,
           getAllFiles Regex.reference repoIgnoredFile "/repo" dirPath [] None
             = Ok files ->
           ~ In (Path.join "/repo" (stripLeadingSlash "logs/debug.log")) files)
  /\ searchInFiles Regex.reference repoIgnoredFile "/repo" "logs/debug.log" "TODO"
     = ([], ["logs/debug.log"])
  /\ searchInFiles Regex.reference repoIgnoredFile "/repo" "logs/debug.log"
       "rotate later" = ([], [])
  /\ searchInFiles Regex.reference repoIgnoredFile "/repo" "logs/" "TODO" =
       ([], ["logs/notes.txt"]).
Proof.
  split; [| split].
  - apply (ignored_file_named_by_entry_is_searched Regex.reference
             repoIgnoredFile "/repo" "logs/debug.log" "TODO" ["*.log"]
             (Some "Todo: rotate"));
      vm_compute; reflexivity.
  - apply (ignored_file_named_by_entry_is_searched Regex.reference
             repoIgnoredFile "/repo" "logs/debug.log" "rotate later" ["*.log"]
             (Some "Todo: rotate"));
      vm_compute; reflexivity.
  - repeat match goal with |- _ /\ _ => split end; vm_compute; reflexivity.
Defined.

(** ** The regular-expression engine *)

Import Regex.

(** Splits a conjunction of closed facts and evaluates each of them. *)
Ltac evaluate :=
  repeat match goal with |- _ /\ _ => split end; vm_compute; reflexivity.

Lemma reference_conforms : conforms reference.
Proof.
  intros source. unfold reference. now destruct (compile source).
Qed.

Lemma conforms_compiled (engine : string -> string -> option bool)
  (source : string) (r : regex) (s : string) :
  conforms engine -> compile source = Compiled r ->
  engine source s = Some (exec r s).
Proof. intros H Hc. specialize (H source). rewrite Hc in H. apply H. Qed.

Lemma conforms_invalid (engine : string -> string -> option bool)
  (source s : string) :
  conforms engine -> compile source = Invalid -> engine source s = None.
Proof. intros H Hc. specialize (H source). rewrite Hc in H. apply H. Qed.

(** One pattern, decided by the reference matcher. *)
Lemma isIgnoredLoop_single (engine : string -> string -> option bool)
  (relativePath pattern : string) (r : regex) :
  conforms engine ->
  compile (regexSource pattern) = Compiled r ->
  isIgnoredLoop engine relativePath [pattern] = Ok (exec r relativePath).
Proof.
  intros H Hc. simpl. rewrite (conforms_compiled _ _ _ _ H Hc).
  now destruct (exec r relativePath).
Qed.

Lemma isIgnoredLoop_invalid (engine : string -> string -> option bool)
  (relativePath pattern : string) (rest : list string) :
  conforms engine ->
  compile (regexSource pattern) = Invalid ->
  isIgnoredLoop engine relativePath (pattern :: rest) =
    Throw (SyntaxError (regexSource pattern)).
Proof. intros H Hc. simpl. now rewrite (conforms_invalid _ _ _ H Hc). Qed.

(** C8.  With the pattern [*.log] the path matcher ignores [a.log] and
    [dir/b.log] and does not ignore [a.logx]. *)
Theorem star_dot_log_pattern :
  forall engine,
    conforms engine ->
    isIgnored engine "/repo" "/repo/a.log" ["*.log"] = Ok true
    /\ isIgnored engine "/repo" "/repo/dir/b.log" ["*.log"] = Ok true
    /\ isIgnored engine "/repo" "/repo/a.logx" ["*.log"] = Ok false
    /\ Path.relative "/repo" "/repo/a.log" = "a.log"
    /\ Path.relative "/repo" "/repo/dir/b.log" = "dir/b.log"
    /\ Path.relative "/repo" "/repo/a.logx" = "a.logx".
Proof.
  intros engine H.
  assert (exists r, compile (regexSource "*.log") = Compiled r
                    /\ exec r "a.log" = true
                    /\ exec r "dir/b.log" = true
                    /\ exec r "a.logx" = false)
    as [r [Hc [H1 [H2 H3]]]].
  { eexists. evaluate. }
  unfold isIgnored.
  repeat match goal with |- _ /\ _ => split end;
    try (vm_compute; reflexivity).
  - change (Path.relative "/repo" "/repo/a.log") with "a.log".
    now rewrite (isIgnoredLoop_single _ _ _ _ H Hc), H1.
  - change (Path.relative "/repo" "/repo/dir/b.log") with "dir/b.log".
    now rewrite (isIgnoredLoop_single _ _ _ _ H Hc), H2.
  - change (Path.relative "/repo" "/repo/a.logx") with "a.logx".
    now rewrite (isIgnoredLoop_single _ _ _ _ H Hc), H3.
Qed.

Lemma star_dot_log_witness :
  isIgnored reference "/repo" "/repo/a.log" ["*.log"] = Ok true
  /\ isIgnored reference "/repo" "/repo/dir/b.log" ["*.log"] = Ok true
  /\ isIgnored reference "/repo" "/repo/a.logx" ["*.log"] = Ok false
  /\ Path.relative "/repo" "/repo/a.log" = "a.log"
  /\ Path.relative "/repo" "/repo/dir/b.log" = "dir/b.log"
  /\ Path.relative "/repo" "/repo/a.logx" = "a.logx".
Proof. apply (star_dot_log_pattern reference). exact reference_conforms. Defined.

(** C4.  Only the dots of a pattern are escaped: [a+b] becomes the source
    [^a+b$|a+b/|/a+b$], in which [+] repeats the [a].  The path [a+b] is not
    ignored, the path [aab], which has no [+], is; [(a)] ignores the path
    [a]; and [c++] is not a regular expression at all. *)
Theorem plus_in_pattern_is_not_escaped :
  forall engine,
    conforms engine ->
    regexSource "a+b" = "^a+b$|a+b/|/a+b$"
    /\ isIgnoredLoop engine "a+b" ["a+b"] = Ok false
    /\ isIgnoredLoop engine "aab" ["a+b"] = Ok true
    /\ isIgnoredLoop engine "a" ["(a)"] = Ok true
    /\ isIgnoredLoop engine "c++" ["c++"] = Throw (SyntaxError "^c++$|c++/|/c++$").
Proof.
  intros engine H.
  assert (exists r, compile (regexSource "a+b") = Compiled r
                    /\ exec r "a+b" = false /\ exec r "aab" = true)
    as [r [Hc [H1 H2]]].
  { eexists. evaluate. }
  assert (exists r, compile (regexSource "(a)") = Compiled r /\ exec r "a" = true)
    as [r' [Hc' H1']].
  { eexists. evaluate. }
  split; [reflexivity |].
  rewrite !(isIgnoredLoop_single _ _ _ _ H Hc), H1, H2.
  rewrite (isIgnoredLoop_single _ _ _ _ H Hc'), H1'.
  repeat match goal with |- _ /\ _ => split end; try reflexivity.
  apply (isIgnoredLoop_invalid engine "c++" "c++" [] H).
  vm_compute; reflexivity.
Qed.

Lemma plus_in_pattern_witness :
  regexSource "a+b" = "^a+b$|a+b/|/a+b$"
  /\ isIgnoredLoop reference "a+b" ["a+b"] = Ok false
  /\ isIgnoredLoop reference "aab" ["a+b"] = Ok true
  /\ isIgnoredLoop reference "a" ["(a)"] = Ok true
  /\ isIgnoredLoop reference "c++" ["c++"] = Throw (SyntaxError "^c++$|c++/|/c++$").
Proof.
  apply (plus_in_pattern_is_not_escaped reference). exact reference_conforms.
Defined.

(** ** Plain patterns *)

Lemma isSyntaxCharacter_false (c : ascii) :
  isSyntaxCharacter c = false ->
  Ascii.eqb c "^" = false /\ Ascii.eqb c "$" = false /\ Ascii.eqb c "\" = false
  /\ Ascii.eqb c "." = false /\ Ascii.eqb c "*" = false
  /\ Ascii.eqb c "+" = false /\ Ascii.eqb c "?" = false
  /\ Ascii.eqb c "(" = false /\ Ascii.eqb c ")" = false
  /\ Ascii.eqb c "|" = false.
Proof.
  unfold isSyntaxCharacter. simpl. intros H.
  repeat (apply orb_false_elim in H as [? H]). repeat split; assumption.
Qed.

(** On a plain pattern the three replacements only escape the dots. *)
Lemma regexPattern_plain (pattern : string) :
  plainPattern pattern = true ->
  regexPattern pattern = replaceAll "." "\." pattern.
Proof.
  unfold regexPattern. induction pattern as [| c p IH]; [reflexivity |].
  simpl. intros H. apply andb_prop in H as [Hc Hp]. specialize (IH Hp).
  destruct (Ascii.eqb c ".") eqn:Hdot.
  - simpl. now rewrite IH.
  - rewrite orb_false_r in Hc. apply negb_true_iff in Hc.
    destruct (isSyntaxCharacter_false c Hc)
      as (_ & _ & _ & _ & Hstar & _ & Hq & _).
    simpl. rewrite Hstar. simpl. rewrite Hq. now rewrite IH.
Qed.

(** Reading the escaped text of a plain pattern adds its characters as
    literal terms. *)
Lemma parseFrom_plain (pattern : string) :
  plainPattern pattern = true ->
  forall (l : last) (alts terms : list regex)
         (stack : list (list regex * list regex)) (rest : string),
    parseFrom {| p_mode := Normal; p_last := l; p_alts := alts;
                 p_terms := terms; p_stack := stack |}
      (replaceAll "." "\." pattern ++ rest) =
    parseFrom {| p_mode := Normal;
                 p_last := match pattern with EmptyString => l | _ => Atom end;
                 p_alts := alts;
                 p_terms := rev (literals pattern) ++ terms;
                 p_stack := stack |}
      rest.
Proof.
  induction pattern as [| c p IH]; intros H l alts terms stack rest;
    [reflexivity |].
  simpl in H. apply andb_prop in H as [Hc Hp].
  cbn [replaceAll literals rev]. rewrite <- app_assoc. cbn [app].
  destruct (Ascii.eqb c ".") eqn:Hdot.
  - apply Ascii.eqb_eq in Hdot. subst c. cbn.
    rewrite (IH Hp). now destruct p.
  - rewrite orb_false_r in Hc. apply negb_true_iff in Hc.
    destruct (isSyntaxCharacter_false c Hc)
      as (H1 & H2 & H3 & H4 & H5 & H6 & H7 & H8 & H9 & H10).
    cbn [append parseFrom step p_mode]. unfold stepNormal.
    rewrite H3, H8, H9, H10, H5, H6, H7, H1, H2, H4, Hc.
    cbn [pushTerm p_alts p_terms p_stack p_last]. rewrite (IH Hp).
    now destruct p.
Qed.

Lemma compile_plain (pattern : string) :
  plainPattern pattern = true ->
  compile (regexSource pattern) = Compiled (literalRegex pattern).
Proof.
  intros H. unfold regexSource, compile, start.
  rewrite (regexPattern_plain _ H).
  cbn [append parseFrom step p_mode]. unfold stepNormal at 1.
  cbn [Ascii.eqb Bool.eqb pushTerm p_alts p_terms p_stack p_last].
  rewrite (parseFrom_plain _ H).
  cbn. rewrite (parseFrom_plain _ H).
  cbn. rewrite (parseFrom_plain _ H).
  cbn. unfold literalRegex.
  rewrite !rev_app_distr, !rev_involutive. reflexivity.
Qed.

(** ** Matching literal text *)

Lemma matchAt_literals (pattern : string) (tail : list regex) :
  forall (atStart : bool) (s : string) (k : position -> bool),
    matchAt (seqOf (literals pattern ++ tail)) (atStart, s) k = true <->
    exists rest,
      s = (pattern ++ rest)%string
      /\ matchAt (seqOf tail)
           (match pattern with EmptyString => atStart | _ => false end, rest) k
         = true.
Proof.
  induction pattern as [| c p IH]; intros atStart s k.
  - simpl. split; [intros H; now exists s | now intros [rest [-> H]]].
  - cbn [literals app seqOf fold_right matchAt snd].
    destruct s as [| a s].
    + split; [discriminate | intros [rest [Hs _]]; discriminate].
    + rewrite andb_true_iff. fold (seqOf (literals p ++ tail)). rewrite IH.
      rewrite Ascii.eqb_eq. split.
      * intros [-> [rest [-> Hm]]]. exists rest. split; [reflexivity |].
        now destruct p.
      * intros [rest [Hs Hm]]. simpl in Hs. injection Hs as -> ->.
        split; [reflexivity |]. exists rest. split; [reflexivity |].
        now destruct p.
Qed.

Lemma matchAt_whole (pattern : string) (atStart : bool) (s : string) :
  matchAt (seqOf (Bol :: literals pattern ++ [Eol])) (atStart, s) accept = true
  <-> atStart = true /\ s = pattern.
Proof.
  cbn [seqOf fold_right matchAt fst]. rewrite andb_true_iff.
  fold (seqOf (literals pattern ++ [Eol])). rewrite matchAt_literals.
  split.
  - intros [-> [rest [-> Hm]]]. simpl in Hm.
    destruct rest; [| discriminate]. now rewrite append_empty_r.
  - intros [-> ->]. split; [reflexivity |]. exists EmptyString.
    split; [now rewrite append_empty_r | reflexivity].
Qed.

Lemma matchAt_directory (pattern : string) (atStart : bool) (s : string) :
  matchAt (seqOf (literals pattern ++ [Chr "/"])) (atStart, s) accept = true
  <-> exists rest, s = (pattern ++ "/" ++ rest)%string.
Proof.
  rewrite matchAt_literals. split.
  - intros [rest [-> Hm]]. simpl in Hm.
    destruct rest as [| a rest]; [discriminate |].
    apply andb_prop in Hm as [Ha _]. apply Ascii.eqb_eq in Ha. subst a.
    now exists rest.
  - intros [rest ->]. exists (String "/" rest). split; reflexivity.
Qed.

Lemma matchAt_suffix (pattern : string) (atStart : bool) (s : string) :
  matchAt (seqOf (Chr "/" :: literals pattern ++ [Eol])) (atStart, s) accept
    = true
  <-> s = ("/" ++ pattern)%string.
Proof.
  cbn [seqOf fold_right matchAt snd].
  fold (seqOf (literals pattern ++ [Eol])).
  destruct s as [| a s]; [split; discriminate |].
  rewrite andb_true_iff, matchAt_literals, Ascii.eqb_eq. split.
  - intros [-> [rest [-> Hm]]]. simpl in Hm.
    destruct rest; [| discriminate]. now rewrite append_empty_r.
  - intros H. simpl in H. injection H as -> ->. split; [reflexivity |].
    exists EmptyString. split; [now rewrite append_empty_r | reflexivity].
Qed.

(** [test] looks for a match at every index of the input. *)
Lemma searchFrom_spec (r : regex) (s : string) :
  forall atStart,
    searchFrom r atStart s = true <->
    exists pre suf,
      s = (pre ++ suf)%string
      /\ matchAt r (atStart && (pre =? "")%string, suf) accept = true.
Proof.
  induction s as [| c s IH]; intros atStart; cbn [searchFrom].
  - rewrite orb_false_r. split.
    + intros H. exists EmptyString, EmptyString. simpl.
      now rewrite andb_true_r.
    + intros [pre [suf [Hs Hm]]].
      destruct pre; [| discriminate]. simpl in Hs. subst suf.
      simpl in Hm. now rewrite andb_true_r in Hm.
  - rewrite orb_true_iff, IH. split.
    + intros [H | [pre [suf [-> Hm]]]].
      * exists EmptyString, (String c s). simpl. now rewrite andb_true_r.
      * exists (String c pre), suf. simpl. split; [reflexivity |].
        now rewrite andb_false_r.
    + intros [[| a pre] [suf [Hs Hm]]].
      * left. simpl in Hs. subst suf. simpl in Hm.
        now rewrite andb_true_r in Hm.
      * right. simpl in Hs. injection Hs as -> ->. exists pre, suf.
        split; [reflexivity |]. simpl in Hm. now rewrite andb_false_r in Hm.
Qed.

(** The three ways in which a plain pattern excludes a path. *)
Lemma exec_literalRegex (pattern s : string) :
  exec (literalRegex pattern) s = true <->
  s = pattern
  \/ (exists before after, s = (before ++ pattern ++ "/" ++ after)%string)
  \/ (exists before, s = (before ++ "/" ++ pattern)%string).
Proof.
  unfold exec. rewrite searchFrom_spec. unfold literalRegex.
  cbn [matchAt]. split.
  - intros [pre [suf [-> Hm]]].
    apply orb_prop in Hm as [Hm | Hm]; [| apply orb_prop in Hm as [Hm | Hm]].
    + apply matchAt_whole in Hm as [Hb ->]. left.
      destruct pre; [reflexivity | discriminate].
    + apply matchAt_directory in Hm as [rest ->]. right; left.
      now exists pre, rest.
    + apply matchAt_suffix in Hm as ->. right; right. now exists pre.
  - intros [-> | [[before [after ->]] | [before ->]]].
    + exists EmptyString, pattern. split; [reflexivity |].
      apply orb_true_iff; left. now apply matchAt_whole.
    + exists before, (pattern ++ "/" ++ after)%string. split; [reflexivity |].
      apply orb_true_iff; right. apply orb_true_iff; left.
      apply matchAt_directory. now exists after.
    + exists before, ("/" ++ pattern)%string. split; [reflexivity |].
      apply orb_true_iff; right. apply orb_true_iff; right.
      now apply matchAt_suffix.
Qed.

(** C2, as the script has it.  For a pattern made of characters without a
    special meaning in a regular expression, and of dots, the path matcher
    ignores a relative path exactly when the path is the pattern, or contains
    the pattern followed by a separator, or ends with a separator followed by
    the pattern. *)
Theorem plain_pattern_ignores_three_shapes :
  forall engine cwd filePath pattern,
    conforms engine ->
    plainPattern pattern = true ->
    exists ignored,
      isIgnored engine cwd filePath [pattern] = Ok ignored
      /\ (ignored = true <->
          Path.relative cwd filePath = pattern
          \/ (exists before after,
                Path.relative cwd filePath
                = (before ++ pattern ++ "/" ++ after)%string)
          \/ (exists before,
                Path.relative cwd filePath = (before ++ "/" ++ pattern)%string)).
Proof.
  intros engine cwd filePath pattern H Hplain.
  exists (exec (literalRegex pattern) (Path.relative cwd filePath)).
  split.
  - unfold isIgnored. apply isIgnoredLoop_single; [exact H |].
    now apply compile_plain.
  - apply exec_literalRegex.
Qed.

Lemma plain_pattern_witness :
  exists ignored,
    isIgnored reference "/repo" "/repo/src/build" ["build"] = Ok ignored
    /\ (ignored = true <->
        Path.relative "/repo" "/repo/src/build" = "build"
        \/ (exists before after,
              Path.relative "/repo" "/repo/src/build"
              = (before ++ "build" ++ "/" ++ after)%string)
        \/ (exists before,
              Path.relative "/repo" "/repo/src/build"
              = (before ++ "/" ++ "build")%string)).
Proof.
  apply (plain_pattern_ignores_three_shapes reference "/repo"
           "/repo/src/build" "build").
  - exact reference_conforms.
  - reflexivity.
Defined.

(** C2, as the claim has it, fails: the pattern [build] has no wildcard, and
    the matcher ignores the paths [src/build] and [build/out.js], neither of
    which is the pattern. *)
Lemma plain_pattern_ignores_other_paths :
  hasWildcard "build" = false
  /\ isIgnored reference "/repo" "/repo/src/build" ["build"] = Ok true
  /\ Path.relative "/repo" "/repo/src/build" = "src/build"
  /\ isIgnored reference "/repo" "/repo/build/out.js" ["build"] = Ok true
  /\ Path.relative "/repo" "/repo/build/out.js" = "build/out.js"
  /\ "src/build" <> "build"
  /\ "build/out.js" <> "build".
Proof.
  repeat match goal with |- _ /\ _ => split end;
    try (vm_compute; reflexivity); discriminate.
Qed.

(** ** The matcher computes what the expression denotes *)

Lemma append_length (a b : string) :
  String.length (a ++ b) = String.length a + String.length b.
Proof. induction a as [| c a IH]; simpl; [reflexivity | now rewrite IH]. Qed.

(** A match consumes a prefix of the input left, and leaves the start of the
    input only by consuming a character. *)
Lemma Matches_consumes (r : regex) (p q : position) :
  Matches r p q ->
  exists consumed,
    snd p = (consumed ++ snd q)%string
    /\ fst q = fst p && (consumed =? "")%string.
Proof.
  induction 1 as
    [p | c b s | a b s Ha | s | b
     | r1 r2 p q t _ [c1 [E1 B1]] _ [c2 [E2 B2]]
     | r1 r2 p q _ IH | r1 r2 p q _ IH
     | r p
     | r p q t _ [c1 [E1 B1]] _ [c2 [E2 B2]]
     | r p q t _ [c1 [E1 B1]] _ [c2 [E2 B2]]
     | r p | r p q _ IH];
    try (exists EmptyString; simpl; now rewrite ?andb_true_r);
    try assumption.
  - exists (String c EmptyString). simpl. now rewrite andb_false_r.
  - exists (String a EmptyString). simpl. now rewrite andb_false_r.
  - exists (c1 ++ c2)%string. rewrite E1, E2, append_assoc, B2, B1.
    split; [reflexivity |]. rewrite <- andb_assoc. f_equal.
    destruct c1; [reflexivity | now rewrite andb_false_l].
  - exists (c1 ++ c2)%string. rewrite E1, E2, append_assoc, B2, B1.
    split; [reflexivity |]. rewrite <- andb_assoc. f_equal.
    destruct c1; [reflexivity | now rewrite andb_false_l].
  - exists (c1 ++ c2)%string. rewrite E1, E2, append_assoc, B2, B1.
    split; [reflexivity |]. rewrite <- andb_assoc. f_equal.
    destruct c1; [reflexivity | now rewrite andb_false_l].
Qed.

Lemma Matches_shorter (r : regex) (p q : position) :
  Matches r p q -> String.length (snd q) <= String.length (snd p).
Proof.
  intros H. destruct (Matches_consumes r p q H) as [c [E _]].
  rewrite E, append_length. lia.
Qed.

Lemma Matches_no_progress (r : regex) (p q : position) :
  Matches r p q -> String.length (snd q) = String.length (snd p) -> q = p.
Proof.
  intros H Hlen. destruct (Matches_consumes r p q H) as [c [E B]].
  rewrite E, append_length in Hlen.
  destruct c; [| simpl in Hlen; lia].
  destruct p, q. simpl in *. rewrite andb_true_r in B. now subst.
Qed.

Section Iterate.

Variable r : regex.
Variable k : position -> bool.

Hypothesis body_spec :
  forall p k', matchAt r p k' = true <-> exists q, Matches r p q /\ k' q = true.

Lemma iterate_sound (fuel : nat) (p : position) :
  iterate (matchAt r) fuel p k = true ->
  exists t, Matches (Star r) p t /\ k t = true.
Proof.
  revert p; induction fuel as [| fuel IH]; intros p; cbn [iterate].
  - rewrite orb_false_r. intros H. exists p. split; [constructor | exact H].
  - intros H. apply orb_prop in H as [H | H].
    + exists p. split; [constructor | exact H].
    + apply body_spec in H as [q [Hq Hk]].
      apply andb_prop in Hk as [_ Hk]. apply IH in Hk as [t [Ht Hkt]].
      exists t. split; [econstructor; eassumption | exact Hkt].
Qed.

Lemma iterate_complete (p t : position) :
  Matches (Star r) p t -> k t = true ->
  forall fuel, String.length (snd p) <= fuel ->
    iterate (matchAt r) fuel p k = true.
Proof.
  intros H. remember (Star r) as sr eqn:Hsr. revert Hsr.
  induction H as
    [ | | | | | | | | r' p | r' p q t Hstep _ Hrest IH | | | ];
    intros Hsr Hk fuel Hfuel; try discriminate; injection Hsr as ->.
  - destruct fuel; cbn [iterate]; now rewrite Hk.
  - pose proof (Matches_shorter _ _ _ Hstep) as Hle.
    destruct (Nat.eq_dec (String.length (snd q)) (String.length (snd p)))
      as [Heq | Hne].
    + rewrite <- (Matches_no_progress _ _ _ Hstep Heq).
      apply IH; [reflexivity | exact Hk | lia].
    + destruct fuel as [| fuel]; [lia |]. cbn [iterate].
      apply orb_true_iff; right. apply body_spec. exists q.
      split; [exact Hstep |]. apply andb_true_iff. split.
      * apply Nat.ltb_lt. lia.
      * apply IH; [reflexivity | exact Hk | lia].
Qed.

End Iterate.

(** The matcher accepts exactly when the expression can consume input up to
    a position the continuation accepts. *)
Theorem matchAt_spec (r : regex) :
  forall p k, matchAt r p k = true <-> exists q, Matches r p q /\ k q = true.
Proof.
  induction r as [| c | | | | r1 IH1 r2 IH2 | r1 IH1 r2 IH2 | r IH | r IH | r IH];
    intros [b s] k; cbn [matchAt fst snd].
  - split; [intros H; exists (b, s); split; [constructor | exact H] |].
    intros [q [Hq Hk]]. now inversion Hq; subst.
  - destruct s as [| a s].
    + split; [discriminate | intros [q [Hq _]]; inversion Hq].
    + rewrite andb_true_iff, Ascii.eqb_eq. split.
      * intros [-> Hk]. exists (false, s). split; [constructor | exact Hk].
      * intros [q [Hq Hk]]. inversion Hq; subst. now split.
  - destruct s as [| a s].
    + split; [discriminate | intros [q [Hq _]]; inversion Hq].
    + rewrite andb_true_iff, negb_true_iff. split.
      * intros [Ha Hk]. exists (false, s). split; [now constructor | exact Hk].
      * intros [q [Hq Hk]]. inversion Hq; subst. now split.
  - rewrite andb_true_iff. split.
    + intros [-> Hk]. exists (true, s). split; [constructor | exact Hk].
    + intros [q [Hq Hk]]. inversion Hq; subst. now split.
  - destruct s as [| a s].
    + split; [intros H; exists (b, EmptyString); split; [constructor | exact H] |].
      intros [q [Hq Hk]]. now inversion Hq; subst.
    + split; [discriminate | intros [q [Hq _]]; inversion Hq].
  - rewrite IH1. split.
    + intros [q [Hq Hk]]. apply IH2 in Hk as [t [Ht Hk]].
      exists t. split; [econstructor; eassumption | exact Hk].
    + intros [t [Ht Hk]]. inversion Ht; subst.
      eexists. split; [eassumption |]. apply IH2. eauto.
  - rewrite orb_true_iff, IH1, IH2. split.
    + intros [[q [Hq Hk]] | [q [Hq Hk]]]; exists q;
        (split; [| exact Hk]); [now apply MAltL | now apply MAltR].
    + intros [q [Hq Hk]]. inversion Hq; subst; [left | right]; eauto.
  - split.
    + apply iterate_sound, IH.
    + intros [t [Ht Hk]]. apply (iterate_complete r k IH (b, s) t Ht Hk).
      simpl; lia.
  - rewrite IH. split.
    + intros [q [Hq Hk]]. apply (iterate_sound r k IH) in Hk as [t [Ht Hk]].
      exists t. split; [econstructor; eassumption | exact Hk].
    + intros [t [Ht Hk]]. inversion Ht; subst.
      eexists. split; [eassumption |].
      eapply (iterate_complete r k IH); eauto.
  - rewrite orb_true_iff, IH. split.
    + intros [[q [Hq Hk]] | Hk].
      * exists q. split; [now apply MOptTake | exact Hk].
      * exists (b, s). split; [apply MOptSkip | exact Hk].
    + intros [q [Hq Hk]]. inversion Hq; subst; [now right | left; eauto].
Qed.

(** [test] answers [true] exactly when the expression matches some substring
    of the input, the assertions being read at the substring's place in the
    input. *)
Theorem exec_spec (r : regex) (s : string) :
  exec r s = true <->
  exists pre mid post,
    s = (pre ++ mid ++ post)%string
    /\ Matches r ((pre =? "")%string, (mid ++ post)%string)
         ((pre =? "")%string && (mid =? "")%string, post).
Proof.
  unfold exec. rewrite searchFrom_spec. split.
  - intros [pre [suf [-> Hm]]]. apply matchAt_spec in Hm as [[b post] [Hq _]].
    destruct (Matches_consumes _ _ _ Hq) as [mid [E B]]. simpl in E, B.
    subst suf b. now exists pre, mid, post.
  - intros [pre [mid [post [-> Hm]]]]. exists pre, (mid ++ post)%string.
    split; [reflexivity |]. apply matchAt_spec. eexists. split; [exact Hm |].
    reflexivity.
Qed.

(** * Further properties of the script *)

(** ** Trimming and splitting *)

Lemma trimStart_head (s : string) :
  match trimStart s with
  | EmptyString => True
  | String c _ => is_space c = false
  end.
Proof.
  induction s as [| c s IH]; simpl; [exact I |].
  destruct (is_space c) eqn:Hc; [exact IH | exact Hc].
Qed.

Lemma trimEnd_head (s : string) (c : ascii) (t : string) :
  trimEnd s = String c t -> exists s', s = String c s'.
Proof.
  destruct s as [| a s]; simpl; [discriminate |].
  destruct (trimEnd s).
  - destruct (is_space a); [discriminate |].
    intros H; injection H as -> _. now exists s.
  - intros H; injection H as -> _. now exists s.
Qed.

Lemma trim_head (s : string) (c : ascii) (t : string) :
  trim s = String c t -> is_space c = false.
Proof.
  unfold trim. intros H. apply trimEnd_head in H as [s' H].
  pose proof (trimStart_head s) as Hh. now rewrite H in Hh.
Qed.

Lemma trimEnd_cons (c : ascii) (s : string) :
  trimEnd (String c s) =
    match trimEnd s with
    | EmptyString => if is_space c then EmptyString else String c EmptyString
    | t => String c t
    end.
Proof. reflexivity. Qed.

Lemma trimEnd_idempotent (s : string) : trimEnd (trimEnd s) = trimEnd s.
Proof.
  induction s as [| c s IH]; [reflexivity |].
  rewrite trimEnd_cons. destruct (trimEnd s) as [| d t] eqn:Ht.
  - destruct (is_space c) eqn:Hc; [reflexivity |]. simpl. now rewrite Hc.
  - rewrite trimEnd_cons, IH. reflexivity.
Qed.

Lemma trimStart_fixed (s : string) :
  match s with
  | EmptyString => True
  | String c _ => is_space c = false
  end -> trimStart s = s.
Proof. destruct s as [| c s]; simpl; [reflexivity | now intros ->]. Qed.

Lemma trim_idempotent (s : string) : trim (trim s) = trim s.
Proof.
  unfold trim at 1. rewrite trimStart_fixed.
  - unfold trim. apply trimEnd_idempotent.
  - destruct (trim s) as [| c t] eqn:Ht; [exact I |].
    now apply trim_head in Ht.
Qed.

Lemma startsWith_char (c d : ascii) (s : string) :
  startsWith (String c s) (String d EmptyString) = Ascii.eqb d c.
Proof.
  destruct (Ascii.eqb d c) eqn:H.
  - apply Ascii.eqb_eq in H. subst d. apply prefix_spec. now exists s.
  - apply Ascii.eqb_neq in H. apply not_true_is_false. intros Hp.
    apply prefix_spec in Hp as [rest Hp]. simpl in Hp. injection Hp as -> _.
    now elim H.
Qed.

Lemma split_ws_from_noSpace (b : bool) (s : string) :
  Forall (fun t => noSpace t = true) (split_ws_from b s).
Proof.
  revert b; induction s as [| c s IH]; intros b; simpl.
  - repeat constructor.
  - destruct (is_space c) eqn:Hc.
    + destruct b; [apply IH | constructor; [reflexivity | apply IH]].
    + specialize (IH false). destruct (split_ws_from false s) as [| t ts].
      * repeat constructor. simpl. now rewrite Hc.
      * inversion IH; subst. constructor; [| assumption].
        simpl. now rewrite Hc.
Qed.

Lemma split_ws_head (c : ascii) (s : string) :
  is_space c = false ->
  exists t ts, split_ws (String c s) = String c t :: ts.
Proof.
  intros Hc. unfold split_ws. simpl. rewrite Hc.
  destruct (split_ws_from false s) as [| t ts]; eauto.
Qed.

Lemma split_nonempty (sep : ascii) (s : string) : split sep s <> [].
Proof.
  induction s as [| c s IH]; simpl; [discriminate |].
  destruct (Ascii.eqb c sep); [discriminate |].
  destruct (split sep s); discriminate.
Qed.

Lemma split_append_separator (sep : ascii) (a b : string) :
  split sep (a ++ String sep b) = split sep a ++ split sep b.
Proof.
  induction a as [| c a IH]; simpl.
  - now rewrite Ascii.eqb_refl.
  - rewrite IH. destruct (Ascii.eqb c sep); [reflexivity |].
    pose proof (split_nonempty sep a) as Hne.
    destruct (split sep a); [now elim Hne | reflexivity].
Qed.

Lemma split_oneLine (s : string) : oneLine s = true -> split LF s = [s].
Proof.
  induction s as [| c s IH]; simpl; [reflexivity |].
  intros H. apply andb_prop in H as [Hc Hs]. apply negb_true_iff in Hc.
  rewrite Hc, (IH Hs). reflexivity.
Qed.

(** ** The ownership parser, continued *)

Lemma fold_parseLine_from (ls : list string) (entries : list entry) :
  fold_left parseLine ls entries = entries ++ fold_left parseLine ls [].
Proof.
  revert entries; induction ls as [| l ls IH]; intros entries; simpl.
  - now rewrite app_nil_r.
  - rewrite IH, (IH (parseLine [] l)).
    destruct (parseLine_extends [] l) as [m Hm]. simpl in Hm.
    assert (parseLine entries l = entries ++ parseLine [] l) as ->.
    { unfold parseLine.
      destruct (startsWith _ _ || _); [now rewrite app_nil_r |].
      destruct (_ <? _)%nat; [now rewrite app_nil_r | reflexivity]. }
    now rewrite app_assoc.
Qed.

Lemma fold_parseLine_app (l1 l2 : list string) :
  fold_left parseLine (l1 ++ l2) [] =
    fold_left parseLine l1 [] ++ fold_left parseLine l2 [].
Proof. rewrite fold_left_app. apply fold_parseLine_from. Qed.

Lemma parseCodeowners_readable (fs : node) (filePath content : string) :
  readFileSync fs filePath = Ok content ->
  parseCodeowners fs filePath =
    ([LogParsed (List.length (entriesOfText content)) filePath],
     Ok (entriesOfText content)).
Proof.
  intros Hread. unfold parseCodeowners.
  assert (existsSync fs filePath = true) as ->.
  { unfold existsSync. unfold readFileSync in Hread.
    now destruct (lookup fs filePath). }
  rewrite Hread. reflexivity.
Qed.

Lemma parseCodeowners_absent (fs : node) (filePath : string) :
  existsSync fs filePath = false ->
  parseCodeowners fs filePath = ([ErrCodeownersNotFound filePath], Ok []).
Proof. intros H. unfold parseCodeowners. now rewrite H. Qed.

Lemma parseCodeowners_entries (fs : node) (filePath : string)
  (out : list message) (entries : list entry) :
  parseCodeowners fs filePath = (out, Ok entries) ->
  entries = [] \/ exists content, entries = entriesOfText content.
Proof.
  unfold parseCodeowners. destruct (existsSync fs filePath); simpl.
  - destruct (readFileSync fs filePath) as [content | e]; simpl;
      [| discriminate].
    intros H; injection H as _ <-. right. now exists content.
  - intros H; injection H as _ <-. now left.
Qed.

Lemma parseLine_wellFormed (entries : list entry) (line : string) :
  Forall wellFormedEntry entries ->
  Forall wellFormedEntry (parseLine entries line).
Proof.
  intros Hall. unfold parseLine.
  destruct (startsWith (trim line) "#") eqn:Hc; [exact Hall |].
  destruct (trim line =? "")%string eqn:He; [exact Hall |]. simpl.
  destruct (_ <? _)%nat; [exact Hall |].
  apply Forall_app. split; [exact Hall |]. constructor; [| constructor].
  apply String.eqb_neq in He.
  destruct (trim line) as [| c rest] eqn:Ht; [now elim He |].
  pose proof (trim_head _ _ _ Ht) as Hsp.
  destruct (split_ws_head c rest Hsp) as [t [ts Hparts]].
  pose proof (split_ws_from_noSpace false (String c rest)) as Hns.
  fold (split_ws (String c rest)) in Hns. rewrite Hparts in *.
  unfold wellFormedEntry. cbn [path owners hd].
  repeat split.
  - discriminate.
  - rewrite (startsWith_char c "#" t), <- (startsWith_char c "#" rest).
    exact Hc.
  - now inversion Hns.
  - apply Forall_forall. intros o Ho. apply filter_In in Ho as [Hin Hat].
    split; [exact Hat |]. rewrite Forall_forall in Hns. now apply Hns.
Qed.

Lemma entriesOfText_wellFormed (content : string) :
  Forall wellFormedEntry (entriesOfText content).
Proof.
  unfold entriesOfText.
  assert (forall ls acc, Forall wellFormedEntry acc ->
            Forall wellFormedEntry (fold_left parseLine ls acc)) as H.
  { induction ls as [| l ls IH]; intros acc Hacc; simpl; [exact Hacc |].
    apply IH, parseLine_wellFormed, Hacc. }
  apply H. constructor.
Qed.

(** X1.  Every entry the parser returns has a path token that is not empty,
    does not start with [#] and holds no white space, and each of its owners
    starts with [@] and holds no white space. *)
Theorem parsed_entries_are_well_formed :
  forall fs filePath out entries e,
    parseCodeowners fs filePath = (out, Ok entries) ->
    In e entries ->
    wellFormedEntry e.
Proof.
  intros fs filePath out entries e Hparse Hin.
  destruct (parseCodeowners_entries _ _ _ _ Hparse) as [-> | [content ->]];
    [destruct Hin |].
  pose proof (entriesOfText_wellFormed content) as H.
  rewrite Forall_forall in H. now apply H.
Qed.

Lemma parsed_entries_witness :
  wellFormedEntry {| path := "/src/a.js"; owners := ["@Team-A"; "@team-b"] |}.
Proof.
  apply (parsed_entries_are_well_formed repoOverlap
           "/repo/.github/CODEOWNERS"
           [LogParsed 2 "/repo/.github/CODEOWNERS"]
           [{| path := "src/"; owners := ["@team-a"] |};
            {| path := "/src/a.js"; owners := ["@Team-A"; "@team-b"] |}]).
  - vm_compute; reflexivity.
  - simpl; auto.
Defined.

(** X2.  Parsing is local to the lines: the entries of two texts joined by a
    line feed are the entries of the first followed by the entries of the
    second, and the count the parser logs is the sum of the two counts. *)
Theorem parsing_distributes_over_lines :
  forall fs filePath a b,
    readFileSync fs filePath = Ok (a ++ String LF b)%string ->
    parseCodeowners fs filePath =
      ([LogParsed (List.length (entriesOfText a) + List.length (entriesOfText b))
          filePath],
       Ok (entriesOfText a ++ entriesOfText b)).
Proof.
  intros fs filePath a b Hread.
  rewrite (parseCodeowners_readable _ _ _ Hread).
  unfold entriesOfText.
  rewrite split_append_separator, fold_parseLine_app, length_app.
  reflexivity.
Qed.

Lemma parsing_distributes_witness :
  parseCodeowners repoOverlap "/repo/.github/CODEOWNERS" =
    ([LogParsed (List.length (entriesOfText "src/ @team-a")
                 + List.length (entriesOfText "/src/a.js @Team-A @team-b"))
        "/repo/.github/CODEOWNERS"],
     Ok (entriesOfText "src/ @team-a"
           ++ entriesOfText "/src/a.js @Team-A @team-b")).
Proof.
  apply (parsing_distributes_over_lines repoOverlap
           "/repo/.github/CODEOWNERS" "src/ @team-a"
           "/src/a.js @Team-A @team-b").
  vm_compute; reflexivity.
Defined.

Lemma parseLine_skipped (line : string) :
  skippedLine line -> forall entries, parseLine entries line = entries.
Proof.
  intros H entries. unfold parseLine. destruct H as [H | [H | H]].
  - rewrite H. now rewrite orb_true_r.
  - now rewrite H.
  - destruct (startsWith _ _ || _); [reflexivity |].
    now destruct (Nat.ltb_spec (List.length (split_ws (trim line))) 2); [| lia].
Qed.

(** X3.  A line that is blank, starts with [#] after trimming, or holds a
    single token contributes nothing: with such a line between two texts the
    parser returns what it returns for the two texts without it. *)
Theorem skipped_line_changes_nothing :
  forall fs filePath a line b,
    oneLine line = true ->
    skippedLine line ->
    readFileSync fs filePath = Ok (a ++ String LF (line ++ String LF b))%string ->
    parseCodeowners fs filePath =
      ([LogParsed (List.length (entriesOfText (a ++ String LF b))) filePath],
       Ok (entriesOfText (a ++ String LF b))).
Proof.
  intros fs filePath a line b Hone Hskip Hread.
  rewrite (parseCodeowners_readable _ _ _ Hread).
  assert (entriesOfText (a ++ String LF (line ++ String LF b)) =
            entriesOfText (a ++ String LF b)) as ->; [| reflexivity].
  unfold entriesOfText.
  rewrite !split_append_separator, (split_oneLine _ Hone), !fold_parseLine_app.
  simpl. now rewrite (parseLine_skipped _ Hskip).
Qed.

Lemma skipped_line_witness :
  parseCodeowners repoScenario "/repo/.github/CODEOWNERS" =
    ([LogParsed (List.length (entriesOfText ("# owners" ++ String LF "src/ @team-a")))
        "/repo/.github/CODEOWNERS"],
     Ok (entriesOfText ("# owners" ++ String LF "src/ @team-a"))).
Proof.
  apply (skipped_line_changes_nothing repoScenario "/repo/.github/CODEOWNERS"
           "# owners" "" "src/ @team-a").
  - reflexivity.
  - left; reflexivity.
  - vm_compute; reflexivity.
Defined.

(** ** The ignore file *)

Lemma parseGitignore_readable (fs : node) (cwd content : string) :
  readFileSync fs (Path.join cwd ".gitignore") = Ok content ->
  parseGitignore fs cwd =
    Ok (fold_left Set_add (filter keptPattern (map trim (split LF content))) []).
Proof. intros H. unfold parseGitignore. now rewrite H. Qed.

(** X4.  The pattern set holds each pattern once; its members are the
    trimmed lines of the ignore file that are not empty and do not start
    with [#]; and trimming a member gives the member back. *)
Theorem gitignore_patterns_are_the_kept_lines :
  forall fs cwd content,
    readFileSync fs (Path.join cwd ".gitignore") = Ok content ->
    exists patterns,
      parseGitignore fs cwd = Ok patterns
      /\ NoDup patterns
      /\ (forall p,
             In p patterns <->
             exists line,
               In line (split LF content) /\ trim line = p
               /\ p <> "" /\ startsWith p "#" = false)
      /\ (forall p, In p patterns -> trim p = p).
Proof.
  intros fs cwd content Hread. eexists.
  split; [exact (parseGitignore_readable _ _ _ Hread) |].
  assert (forall p,
             In p (fold_left Set_add
                     (filter keptPattern (map trim (split LF content))) []) <->
             exists line,
               In line (split LF content) /\ trim line = p
               /\ p <> "" /\ startsWith p "#" = false) as Hmem.
  { intros p. rewrite fold_Set_add_In, filter_In, in_map_iff.
    unfold keptPattern. rewrite andb_true_iff, !negb_true_iff, String.eqb_neq.
    split.
    - intros [[] | [[line [Ht Hl]] [Hne Hc]]]. now exists line.
    - intros [line [Hl [Ht [Hne Hc]]]]. right. split; [now exists line |].
      now split. }
  split; [apply fold_Set_add_NoDup; constructor |].
  split; [exact Hmem |].
  intros p Hp. apply Hmem in Hp as [line [_ [<- _]]]. apply trim_idempotent.
Qed.

Lemma gitignore_patterns_witness :
  exists patterns,
    parseGitignore repoScenario "/repo" = Ok patterns
    /\ NoDup patterns
    /\ (forall p,
           In p patterns <->
           exists line,
             In line (split LF (unlines ["# tests"; "*.test.js"; ""]))
             /\ trim line = p /\ p <> "" /\ startsWith p "#" = false)
    /\ (forall p, In p patterns -> trim p = p).
Proof.
  apply (gitignore_patterns_are_the_kept_lines repoScenario "/repo"
           (unlines ["# tests"; "*.test.js"; ""])).
  vm_compute; reflexivity.
Defined.

(** ** The pattern loop *)

(** X5.  The loop over the patterns is decided by the first pattern that
    matches the path or whose source is rejected: it answers [false] when
    every pattern fails to match, [true] when a pattern matches and all the
    patterns before it fail to match, and it throws the syntax error of a
    pattern when all the patterns before it fail to match. *)
Theorem first_decisive_pattern_decides :
  forall RegExp_test relativePath patterns,
    (isIgnoredLoop RegExp_test relativePath patterns = Ok false <->
     forall p, In p patterns ->
       RegExp_test (regexSource p) relativePath = Some false)
    /\ (isIgnoredLoop RegExp_test relativePath patterns = Ok true <->
        exists before p after,
          patterns = before ++ p :: after
          /\ (forall q, In q before ->
                RegExp_test (regexSource q) relativePath = Some false)
          /\ RegExp_test (regexSource p) relativePath = Some true)
    /\ (forall e,
           isIgnoredLoop RegExp_test relativePath patterns = Throw e <->
           exists before p after,
             patterns = before ++ p :: after
             /\ (forall q, In q before ->
                   RegExp_test (regexSource q) relativePath = Some false)
             /\ RegExp_test (regexSource p) relativePath = None
             /\ e = SyntaxError (regexSource p)).
Proof.
  intros E rel patterns.
  induction patterns as [| p0 rest [IHf [IHt IHe]]].
  - simpl. repeat split; try discriminate; try (intros _ _ []).
    + intros [[| ? ?] [p [after [H _]]]]; discriminate.
    + intros [[| ? ?] [p [after [H _]]]]; discriminate.
  - cbn [isIgnoredLoop].
    destruct (E (regexSource p0) rel) as [[|] |] eqn:H0.
    + split; [| split].
      * split; [discriminate |]. intros H.
        specialize (H p0 (or_introl eq_refl)). congruence.
      * split; [intros _ | reflexivity].
        exists [], p0, rest. repeat split; auto. intros q [].
      * intros e. split; [discriminate |].
        intros [[| q before] [p [after [Hp [Hb [Hn _]]]]]].
        -- injection Hp as <- _. congruence.
        -- injection Hp as <- _.
           specialize (Hb p0 (or_introl eq_refl)). congruence.
    + split; [| split].
      * rewrite IHf. split.
        -- intros H p [<- | Hp]; auto.
        -- intros H p Hp. apply H. now right.
      * rewrite IHt. split.
        -- intros [before [p [after [-> [Hb Hp]]]]].
           exists (p0 :: before), p, after. repeat split; auto.
           intros q [<- | Hq]; auto.
        -- intros [[| q before] [p [after [Hp [Hb Hm]]]]].
           ++ injection Hp as <- _. congruence.
           ++ injection Hp as <- ->. exists before, p, after.
              repeat split; auto. intros q' Hq'. apply Hb. now right.
      * intros e. rewrite IHe. split.
        -- intros [before [p [after [-> [Hb Hp]]]]].
           exists (p0 :: before), p, after. repeat split; try apply Hp.
           intros q [<- | Hq]; auto.
        -- intros [[| q before] [p [after [Hp [Hb Hm]]]]].
           ++ injection Hp as <- _. destruct Hm; congruence.
           ++ injection Hp as <- ->. exists before, p, after.
              repeat split; try apply Hm. intros q' Hq'. apply Hb. now right.
    + split; [| split].
      * split; [discriminate |]. intros H.
        specialize (H p0 (or_introl eq_refl)). congruence.
      * split; [discriminate |].
        intros [[| q before] [p [after [Hp [Hb Hm]]]]].
        -- injection Hp as <- _. congruence.
        -- injection Hp as <- _.
           specialize (Hb p0 (or_introl eq_refl)). congruence.
      * intros e. split.
        -- intros H. injection H as <-. exists [], p0, rest.
           repeat split; auto. intros q [].
        -- intros [[| q before] [p [after [Hp [Hb [Hn ->]]]]]].
           ++ now injection Hp as <- _.
           ++ injection Hp as <- _.
              specialize (Hb p0 (or_introl eq_refl)). congruence.
Qed.

(** ** The directory walk *)

Section Walk.

Variable RegExp_test : string -> string -> option bool.
Variable cwd : string.
Variable patterns : list string.

Let walk := getAllFilesIn RegExp_test cwd patterns.

(** One turn of the [forEach] callback. *)
Lemma walk_entry (dirPath name : string) (stat : node)
  (rest : list (string * node)) (arrayOfFiles : list string) :
  walk dirPath (Dir true ((name, stat) :: rest)) arrayOfFiles =
    match isIgnored RegExp_test cwd (Path.join dirPath name) patterns with
    | Throw e => Throw e
    | Ok true => walk dirPath (Dir true rest) arrayOfFiles
    | Ok false =>
        match stat with
        | Dir _ _ =>
            match walk (Path.join dirPath name) stat arrayOfFiles with
            | Throw e => Throw e
            | Ok arrayOfFiles' => walk dirPath (Dir true rest) arrayOfFiles'
            end
        | File _ =>
            walk dirPath (Dir true rest)
              (arrayOfFiles ++ [Path.join dirPath name])
        end
    end.
Proof. reflexivity. Qed.

(** The walk of a listing is the walk of its first part followed by the walk
    of the rest. *)
Lemma walk_app (dirPath : string) (front back : list (string * node)) :
  forall arrayOfFiles,
    walk dirPath (Dir true (front ++ back)) arrayOfFiles =
      match walk dirPath (Dir true front) arrayOfFiles with
      | Throw e => Throw e
      | Ok arrayOfFiles' => walk dirPath (Dir true back) arrayOfFiles'
      end.
Proof.
  induction front as [| [name stat] front IH]; intros acc; [reflexivity |].
  rewrite <- app_comm_cons, !walk_entry.
  destruct (isIgnored _ _ _ _) as [[|] | e]; [apply IH | | reflexivity].
  destruct stat as [text | r es]; [apply IH |].
  destruct (walk (Path.join dirPath name) (Dir r es) acc); [apply IH |].
  reflexivity.
Qed.

(** The files collected so far are kept in front, and what the walk adds
    does not depend on them. *)
Lemma walk_accumulates (dir : node) :
  forall dirPath arrayOfFiles,
    walk dirPath dir arrayOfFiles =
      match walk dirPath dir [] with
      | Throw e => Throw e
      | Ok files => Ok (arrayOfFiles ++ files)
      end.
Proof.
  induction dir as [text | readable entries IH] using node_induction;
    intros dirPath acc; [reflexivity |].
  destruct readable; [| reflexivity].
  revert acc. induction IH as [| [name stat] rest Hstat _ IHrest]; intros acc.
  - simpl. now rewrite app_nil_r.
  - rewrite !walk_entry.
    destruct (isIgnored _ _ _ _) as [[|] | e]; [apply IHrest | | reflexivity].
    destruct stat as [text | r es].
    + rewrite IHrest, (IHrest ([] ++ _)).
      destruct (walk dirPath (Dir true rest) []); [| reflexivity].
      now rewrite <- app_assoc.
    + simpl in Hstat. rewrite (Hstat _ acc).
      destruct (walk (Path.join dirPath name) (Dir r es) []) as [sub | e];
        [| reflexivity].
      rewrite IHrest, (IHrest sub).
      destruct (walk dirPath (Dir true rest) []); [| reflexivity].
      now rewrite <- app_assoc.
Qed.

End Walk.

(** X6.  [getAllFiles] keeps the files it is given in front of its result,
    and what it adds does not depend on them; a failure does not depend on
    them either. *)
Theorem walk_extends_the_accumulator :
  forall RegExp_test fs cwd dirPath arrayOfFiles ignorePatterns,
    getAllFiles RegExp_test fs cwd dirPath arrayOfFiles ignorePatterns =
      match getAllFiles RegExp_test fs cwd dirPath [] ignorePatterns with
      | Throw e => Throw e
      | Ok files => Ok (arrayOfFiles ++ files)
      end.
Proof.
  intros E fs cwd dirPath acc ignorePatterns. unfold getAllFiles.
  destruct (match ignorePatterns with
            | Some p => Ok p
            | None => parseGitignore fs cwd
            end) as [patterns | e]; [| reflexivity].
  destruct (lookup fs dirPath) as [dir |]; [| reflexivity].
  apply walk_accumulates.
Qed.

(** X7.  Every path the search of a directory reports is the relative path
    of a file that the ignore patterns do not exclude. *)
Theorem directory_search_reports_no_ignored_file :
  forall RegExp_test fs cwd basePath searchTerm patterns readable entries
         reported,
    parseGitignore fs cwd = Ok patterns ->
    lookup fs (Path.join cwd (stripLeadingSlash basePath)) =
      Some (Dir readable entries) ->
    In reported (snd (searchInFiles RegExp_test fs cwd basePath searchTerm)) ->
    exists file,
      reported = Path.relative cwd file
      /\ isIgnored RegExp_test cwd file patterns = Ok false.
Proof.
  intros E fs cwd basePath searchTerm patterns readable entries reported
    Hgit Hdir Hin.
  apply searchInFiles_reports in Hin as [file [Hc [-> _]]].
  exists file. split; [reflexivity |].
  destruct Hc as [[text [Hf _]] | [r [es [files [_ [Hwalk Hfile]]]]]];
    [congruence |].
  exact (getAllFiles_not_ignored _ _ _ _ _ _ Hgit Hwalk file Hfile).
Qed.

Lemma directory_search_witness :
  exists file,
    "logs/notes.txt" = Path.relative "/repo" file
    /\ isIgnored Regex.reference "/repo" file ["*.log"] = Ok false.
Proof.
  apply (directory_search_reports_no_ignored_file Regex.reference
           repoIgnoredFile "/repo" "logs/" "todo" ["*.log"] true
           [("debug.log", File (Some "Todo: rotate"));
            ("notes.txt", File (Some "todo later"))]
           "logs/notes.txt").
  - vm_compute; reflexivity.
  - vm_compute; reflexivity.
  - vm_compute; auto.
Defined.

(** X8.  A subdirectory that is not ignored and cannot be listed makes the
    whole walk fail: the search of the owned directory logs the error and
    reports no file, whatever the entries listed before it hold. *)
Theorem unlistable_subdirectory_empties_the_search :
  forall RegExp_test fs cwd basePath searchTerm patterns front name inside
         back collected,
    let fullPath := Path.join cwd (stripLeadingSlash basePath) in
    parseGitignore fs cwd = Ok patterns ->
    lookup fs fullPath =
      Some (Dir true (front ++ (name, Dir false inside) :: back)) ->
    getAllFilesIn RegExp_test cwd patterns fullPath (Dir true front) [] =
      Ok collected ->
    isIgnored RegExp_test cwd (Path.join fullPath name) patterns = Ok false ->
    searchInFiles RegExp_test fs cwd basePath searchTerm =
      ([ErrSearching basePath (EACCES (Path.join fullPath name))], []).
Proof.
  intros E fs cwd basePath searchTerm patterns front name inside back
    collected fullPath Hgit Hdir Hfront Hig.
  rewrite (searchInFiles_directory _ _ _ _ _ _ _ Hdir).
  fold fullPath. unfold getAllFiles. rewrite Hgit, Hdir.
  rewrite walk_app, Hfront, walk_entry, Hig. reflexivity.
Qed.

Lemma unlistable_subdirectory_witness :
  searchInFiles Regex.reference repoLocked "/repo" "src/" "todo" =
    ([ErrSearching "src/"
        (EACCES (Path.join (Path.join "/repo" (stripLeadingSlash "src/"))
                   "locked"))], []).
Proof.
  apply (unlistable_subdirectory_empties_the_search Regex.reference repoLocked
           "/repo" "src/" "todo" ["*.log"]
           [("a.js", File (Some "TODO here"))] "locked" [] []
           ["/repo/src/a.js"]);
    vm_compute; reflexivity.
Defined.

(** ** The content loop *)

Lemma scanFiles_warnings (fs : node) (cwd searchTerm : string)
  (files matchingFiles : list string) :
  fst (scanFiles fs cwd searchTerm files matchingFiles) = readWarnings fs files.
Proof.
  revert matchingFiles; induction files as [| f files IH]; intros acc;
    [reflexivity |].
  simpl. destruct (readFileSync fs f) as [content | e].
  - destruct (includes _ _); apply IH.
  - specialize (IH acc). destruct (scanFiles fs cwd searchTerm files acc).
    simpl in *. now rewrite IH.
Qed.

(** X9.  In the search of a directory each file of the walk that cannot be
    read yields one warning and nothing else: the files reported are, in the
    order of the walk, the readable files whose content contains the term. *)
Theorem unreadable_files_are_skipped_with_a_warning :
  forall RegExp_test fs cwd basePath searchTerm readable entries files,
    lookup fs (Path.join cwd (stripLeadingSlash basePath)) =
      Some (Dir readable entries) ->
    getAllFiles RegExp_test fs cwd (Path.join cwd (stripLeadingSlash basePath))
      [] None = Ok files ->
    searchInFiles RegExp_test fs cwd basePath searchTerm =
      (readWarnings fs files,
       map (Path.relative cwd) (filter (fileMatches fs searchTerm) files)).
Proof.
  intros E fs cwd basePath searchTerm readable entries files Hdir Hwalk.
  rewrite (searchInFiles_directory _ _ _ _ _ _ _ Hdir), Hwalk.
  rewrite (surjective_pairing (scanFiles fs cwd searchTerm files [])).
  now rewrite scanFiles_warnings, scanFiles_result.
Qed.

Lemma unreadable_files_witness :
  searchInFiles Regex.reference repoLocked "/repo" "docs/" "TODO" =
    (readWarnings repoLocked ["/repo/docs/a.md"; "/repo/docs/b.md"],
     map (Path.relative "/repo")
       (filter (fileMatches repoLocked "TODO")
          ["/repo/docs/a.md"; "/repo/docs/b.md"])).
Proof.
  apply (unreadable_files_are_skipped_with_a_warning Regex.reference
           repoLocked "/repo" "docs/" "TODO" true
           [("a.md", File None); ("b.md", File (Some "todo"))]);
    vm_compute; reflexivity.
Defined.

(** ** The orchestration *)

Section Orchestration.

Variable RegExp_test : string -> string -> option bool.
Variable fs : node.
Variable cwd : string.

Lemma searchEntries_only (searchTerm team : string) (allEntries : list entry)
  (matchingFiles : list string) (file : string) :
  In file (snd (searchEntries RegExp_test fs cwd searchTerm team allEntries
                  matchingFiles)) ->
  In file matchingFiles
  \/ exists e,
       In e allEntries /\ ownedBy team e = true
       /\ In file (snd (searchInFiles RegExp_test fs cwd (normalizedPath e)
                          searchTerm)).
Proof.
  revert matchingFiles; induction allEntries as [| e rest IH]; intros acc.
  - simpl. now left.
  - simpl. destruct (ownedBy team e) eqn:Hown.
    + destruct (searchInFiles _ _ _ (normalizedPath e) _) as [out found] eqn:Hs.
      specialize (IH (fold_left Set_add found acc)).
      destruct (searchEntries _ _ _ _ _ rest _). simpl in *.
      intros Hin. destruct (IH Hin) as [Hacc | [e' [He' [Ho' Hf']]]].
      * apply fold_Set_add_In in Hacc as [Hacc | Hfound]; [now left |].
        right. exists e. rewrite Hs. auto.
      * right. exists e'. auto.
    + intros Hin. destruct (IH acc Hin) as [Hacc | [e' [He' [Ho' Hf']]]];
        [now left |].
      right. exists e'. auto.
Qed.

Lemma searchEntries_unowned (searchTerm team : string)
  (allEntries : list entry) (matchingFiles : list string) :
  (forall e, In e allEntries -> ownedBy team e = false) ->
  searchEntries RegExp_test fs cwd searchTerm team allEntries matchingFiles =
    ([], matchingFiles).
Proof.
  revert matchingFiles; induction allEntries as [| e rest IH]; intros acc H;
    [reflexivity |].
  simpl. rewrite (H e) by (simpl; auto). apply IH.
  intros e' He'. apply H. simpl; auto.
Qed.

Lemma findCodeownersPaths_output (searchTerm team : string)
  (out0 : list message) (allEntries : list entry) :
  parseCodeowners fs (CODEOWNERS_FILE cwd) = (out0, Ok allEntries) ->
  findCodeownersPaths RegExp_test fs cwd searchTerm team =
    (out0
       ++ fst (searchEntries RegExp_test fs cwd searchTerm team allEntries [])
       ++ [LogFound
             (List.length
                (snd (searchEntries RegExp_test fs cwd searchTerm team
                        allEntries [])))
             searchTerm team],
     Ok (snd (searchEntries RegExp_test fs cwd searchTerm team allEntries []))).
Proof.
  intros H. unfold findCodeownersPaths. rewrite H. simpl.
  destruct (searchEntries _ _ _ _ _ _ _) as [out found]. reflexivity.
Qed.

Lemma searchInFiles_no_LogFile (basePath searchTerm : string) :
  filter isLogFile (fst (searchInFiles RegExp_test fs cwd basePath searchTerm))
    = [].
Proof.
  unfold searchInFiles. destruct (negb _); [reflexivity |].
  destruct (statSync fs _) as [stats | e]; [| reflexivity].
  destruct (isFile stats).
  - destruct (readFileSync fs _); [now destruct (includes _ _) | reflexivity].
  - destruct (isDirectory stats); [| reflexivity].
    destruct (getAllFiles _ _ _ _ _ _) as [files | e]; [| reflexivity].
    rewrite scanFiles_warnings. unfold readWarnings.
    induction files as [| f files IH]; [reflexivity |].
    simpl. rewrite filter_app, IH.
    now destruct (readFileSync fs f).
Qed.

Lemma searchEntries_no_LogFile (searchTerm team : string)
  (allEntries : list entry) (matchingFiles : list string) :
  filter isLogFile
    (fst (searchEntries RegExp_test fs cwd searchTerm team allEntries
            matchingFiles)) = [].
Proof.
  revert matchingFiles; induction allEntries as [| e rest IH]; intros acc;
    [reflexivity |].
  simpl. destruct (ownedBy team e); [| apply IH].
  pose proof (searchInFiles_no_LogFile (normalizedPath e) searchTerm) as Hs.
  destruct (searchInFiles _ _ _ _ _) as [out found].
  specialize (IH (fold_left Set_add found acc)).
  destruct (searchEntries _ _ _ _ _ rest _). simpl in *.
  now rewrite filter_app, Hs, IH.
Qed.

Lemma parseCodeowners_no_LogFile (filePath : string) :
  filter isLogFile (fst (parseCodeowners fs filePath)) = [].
Proof.
  unfold parseCodeowners. destruct (negb _); [reflexivity |].
  now destruct (readFileSync fs filePath).
Qed.

End Orchestration.

(** X10.  The list [findCodeownersPaths] returns holds each file once, and
    its members are the files that the search of some entry owned by the
    team reports, and nothing else. *)
Theorem results_are_the_files_of_owned_entries :
  forall RegExp_test fs cwd searchTerm team out0 allEntries,
    parseCodeowners fs (CODEOWNERS_FILE cwd) = (out0, Ok allEntries) ->
    exists out results,
      findCodeownersPaths RegExp_test fs cwd searchTerm team = (out, Ok results)
      /\ NoDup results
      /\ forall file,
           In file results <->
           exists e,
             In e allEntries /\ ownedBy team e = true
             /\ In file (snd (searchInFiles RegExp_test fs cwd
                                (normalizedPath e) searchTerm)).
Proof.
  intros E fs cwd searchTerm team out0 allEntries Hparse.
  eexists _, _. split; [exact (findCodeownersPaths_output _ _ _ _ _ _ _ Hparse) |].
  split; [apply searchEntries_NoDup; constructor |].
  intros file. split.
  - intros Hin. apply searchEntries_only in Hin as [[] | H]. exact H.
  - intros [e [He [Hown Hfile]]]. now apply searchEntries_collects with (e := e).
Qed.

Lemma results_of_owned_entries_witness :
  exists out results,
    findCodeownersPaths Regex.reference repoLocked "/repo" "todo" "@team-a"
      = (out, Ok results)
    /\ NoDup results
    /\ forall file,
         In file results <->
         exists e,
           In e [{| path := "src/"; owners := ["@team-a"] |};
                 {| path := "docs/"; owners := ["@team-a"] |}]
           /\ ownedBy "@team-a" e = true
           /\ In file (snd (searchInFiles Regex.reference repoLocked "/repo"
                              (normalizedPath e) "todo")).
Proof.
  apply (results_are_the_files_of_owned_entries Regex.reference repoLocked
           "/repo" "todo" "@team-a" [LogParsed 2 "/repo/.github/CODEOWNERS"]).
  vm_compute; reflexivity.
Defined.

Lemma main_with_two_arguments (RegExp_test : string -> string -> option bool)
  (fs : node) (cwd searchTerm team : string) (more : list string) :
  main RegExp_test fs cwd (searchTerm :: team :: more) =
    match findCodeownersPaths RegExp_test fs cwd searchTerm team with
    | (out, Throw e) => (LogSearchingFor searchTerm team :: out, Uncaught e)
    | (out, Ok results) =>
        (LogSearchingFor searchTerm team :: out ++ report results, Completed)
    end.
Proof.
  unfold main. simpl.
  now destruct (findCodeownersPaths _ _ _ _ _) as [out [results | e]].
Qed.

(** X11.  When no parsed entry is owned by the team, nothing is searched:
    after the messages of the parser the script logs a count of 0 and that no
    file was found, and it ends normally. *)
Theorem unknown_owner_finds_nothing :
  forall RegExp_test fs cwd searchTerm team more out0 allEntries,
    parseCodeowners fs (CODEOWNERS_FILE cwd) = (out0, Ok allEntries) ->
    (forall e, In e allEntries -> ownedBy team e = false) ->
    main RegExp_test fs cwd (searchTerm :: team :: more) =
      (LogSearchingFor searchTerm team
         :: out0 ++ [LogFound 0 searchTerm team; LogNoFiles],
       Completed).
Proof.
  intros E fs cwd searchTerm team more out0 allEntries Hparse Hnone.
  rewrite main_with_two_arguments.
  rewrite (findCodeownersPaths_output _ _ _ _ _ _ _ Hparse).
  rewrite (searchEntries_unowned _ _ _ _ _ _ _ Hnone). simpl.
  now rewrite <- app_assoc.
Qed.

Lemma unknown_owner_witness :
  main Regex.reference repoOverlap "/repo" ["TODO"; "@team-c"] =
    (LogSearchingFor "TODO" "@team-c"
       :: [LogParsed 2 "/repo/.github/CODEOWNERS"]
       ++ [LogFound 0 "TODO" "@team-c"; LogNoFiles],
     Completed).
Proof.
  apply (unknown_owner_finds_nothing Regex.reference repoOverlap "/repo"
           "TODO" "@team-c" [] [LogParsed 2 "/repo/.github/CODEOWNERS"]
           [{| path := "src/"; owners := ["@team-a"] |};
            {| path := "/src/a.js"; owners := ["@Team-A"; "@team-b"] |}]).
  - vm_compute; reflexivity.
  - intros e [<- | [<- | []]]; reflexivity.
Defined.

(** X12.  Without an ownership file the script does not fail: it logs that
    the file was not found, a count of 0 and that no file was found, and it
    ends normally. *)
Theorem missing_codeowners_finds_nothing :
  forall RegExp_test fs cwd searchTerm team more,
    existsSync fs (CODEOWNERS_FILE cwd) = false ->
    main RegExp_test fs cwd (searchTerm :: team :: more) =
      ([LogSearchingFor searchTerm team;
        ErrCodeownersNotFound (CODEOWNERS_FILE cwd);
        LogFound 0 searchTerm team;
        LogNoFiles],
       Completed).
Proof.
  intros E fs cwd searchTerm team more Habsent.
  rewrite main_with_two_arguments.
  now rewrite (findCodeownersPaths_output _ _ _ _ _ _ _
                 (parseCodeowners_absent _ _ Habsent)).
Qed.

Lemma missing_codeowners_witness :
  main Regex.reference (inRepo []) "/repo" ["TODO"; "@team-a"] =
    ([LogSearchingFor "TODO" "@team-a";
      ErrCodeownersNotFound (CODEOWNERS_FILE "/repo");
      LogFound 0 "TODO" "@team-a";
      LogNoFiles],
     Completed).
Proof.
  apply (missing_codeowners_finds_nothing Regex.reference (inRepo []) "/repo"
           "TODO" "@team-a" []).
  vm_compute; reflexivity.
Defined.

Section LetterCase.

Variable RegExp_test : string -> string -> option bool.
Variable fs : node.
Variable cwd : string.

Lemma scanFiles_term (term1 term2 : string) (files acc : list string) :
  toLowerCase term1 = toLowerCase term2 ->
  scanFiles fs cwd term1 files acc = scanFiles fs cwd term2 files acc.
Proof.
  intros H. revert acc; induction files as [| f files IH]; intros acc;
    [reflexivity |].
  simpl. rewrite H. destruct (readFileSync fs f); [| now rewrite IH].
  destruct (includes _ _); apply IH.
Qed.

Lemma searchInFiles_term (basePath term1 term2 : string) :
  toLowerCase term1 = toLowerCase term2 ->
  searchInFiles RegExp_test fs cwd basePath term1 =
    searchInFiles RegExp_test fs cwd basePath term2.
Proof.
  intros H. unfold searchInFiles. rewrite H.
  destruct (negb _); [reflexivity |].
  destruct (statSync fs _) as [stats | e]; [| reflexivity].
  destruct (isFile stats); [reflexivity |].
  destruct (isDirectory stats); [| reflexivity].
  destruct (getAllFiles _ _ _ _ _ _); [| reflexivity].
  now apply scanFiles_term.
Qed.

Lemma searchEntries_case (term1 term2 team1 team2 : string)
  (allEntries : list entry) (acc : list string) :
  toLowerCase term1 = toLowerCase term2 ->
  toLowerCase team1 = toLowerCase team2 ->
  searchEntries RegExp_test fs cwd term1 team1 allEntries acc =
    searchEntries RegExp_test fs cwd term2 team2 allEntries acc.
Proof.
  intros Hterm Hteam. revert acc.
  induction allEntries as [| e rest IH]; intros acc; [reflexivity |].
  simpl. unfold ownedBy. rewrite Hteam.
  rewrite (searchInFiles_term _ _ _ Hterm).
  destruct (existsb _ _); [| apply IH].
  destruct (searchInFiles _ _ _ _ term2). now rewrite IH.
Qed.

End LetterCase.

(** X13.  Letter case plays no part in what is found: two search terms with
    the same lower-case form, and two team names with the same lower-case
    form, give the same result (the same files, or the same error). *)
Theorem letter_case_does_not_change_the_result :
  forall RegExp_test fs cwd term1 term2 team1 team2,
    toLowerCase term1 = toLowerCase term2 ->
    toLowerCase team1 = toLowerCase team2 ->
    snd (findCodeownersPaths RegExp_test fs cwd term1 team1) =
      snd (findCodeownersPaths RegExp_test fs cwd term2 team2).
Proof.
  intros E fs cwd term1 term2 team1 team2 Hterm Hteam.
  unfold findCodeownersPaths.
  destruct (parseCodeowners fs (CODEOWNERS_FILE cwd)) as [out0 [all | e]];
    [| reflexivity].
  simpl. rewrite (searchEntries_case E fs cwd _ _ _ _ all [] Hterm Hteam).
  now destruct (searchEntries E fs cwd term2 team2 all []).
Qed.

Lemma letter_case_witness :
  snd (findCodeownersPaths Regex.reference repoOverlap "/repo" "Todo" "@TEAM-A")
  = snd (findCodeownersPaths Regex.reference repoOverlap "/repo" "tODO" "@team-a").
Proof.
  apply (letter_case_does_not_change_the_result Regex.reference repoOverlap
           "/repo" "Todo" "tODO" "@TEAM-A" "@team-a"); reflexivity.
Defined.

Lemma filter_isLogFile_map (files : list string) :
  filter isLogFile (map LogFile files) = map LogFile files.
Proof.
  induction files as [| f files IH]; simpl; [reflexivity | now rewrite IH].
Qed.

Lemma report_files (results : list string) :
  filter isLogFile (report results) = map LogFile results.
Proof.
  unfold report. destruct results as [| r results]; [reflexivity |].
  cbn [List.length Nat.ltb Nat.leb]. cbn [filter isLogFile].
  now rewrite filter_app, filter_isLogFile_map, app_nil_r.
Qed.

(** X14.  When the script ends normally after a search, its output is the
    announcement, the output of [findCodeownersPaths], and a report of the
    list [findCodeownersPaths] returned: the file lines of the output are
    the members of that list, once each and in its order; the count in the
    [Found] message is its length; and the report ends with the list joined
    by commas, or says that no file was found when the list is empty. *)
Theorem report_lists_each_result_once :
  forall RegExp_test fs cwd searchTerm team more out,
    main RegExp_test fs cwd (searchTerm :: team :: more) = (out, Completed) ->
    exists found results,
      findCodeownersPaths RegExp_test fs cwd searchTerm team
        = (found, Ok results)
      /\ NoDup results
      /\ filter isLogFile out = map LogFile results
      /\ (exists before,
            found = before ++ [LogFound (List.length results) searchTerm team])
      /\ out = LogSearchingFor searchTerm team :: found
                 ++ match results with
                    | [] => [LogNoFiles]
                    | _ :: _ =>
                        LogFilesFound (List.length results)
                          :: map LogFile results
                          ++ [LogCommaSeparated (JsString.join ", " results)]
                    end.
Proof.
  intros E fs cwd searchTerm team more out Hmain.
  rewrite main_with_two_arguments in Hmain.
  destruct (parseCodeowners fs (CODEOWNERS_FILE cwd)) as [out0 [all | e]] eqn:Hp.
  - pose proof (findCodeownersPaths_output E fs cwd searchTerm team _ _ Hp)
      as Hfcp.
    rewrite Hfcp in Hmain. injection Hmain as <-.
    eexists _, _. split; [exact Hfcp |].
    split; [apply searchEntries_NoDup; constructor |].
    split; [| split].
    + cbn [filter isLogFile]. rewrite !filter_app, report_files.
      pose proof (parseCodeowners_no_LogFile fs (CODEOWNERS_FILE cwd)) as H0.
      rewrite Hp in H0. simpl in H0.
      now rewrite H0, searchEntries_no_LogFile.
    + eexists. rewrite app_assoc. reflexivity.
    + unfold report.
      now destruct (snd (searchEntries E fs cwd searchTerm team all [])).
  - unfold findCodeownersPaths in Hmain. rewrite Hp in Hmain. discriminate.
Qed.

Lemma report_witness :
  exists found results,
    findCodeownersPaths Regex.reference repoScenario "/repo" "TODO" "@team-a"
      = (found, Ok results)
    /\ NoDup results
    /\ filter isLogFile
         [LogSearchingFor "TODO" "@team-a";
          LogParsed 1 "/repo/.github/CODEOWNERS";
          LogSearchingInPath "src/";
          LogFound 1 "TODO" "@team-a";
          LogFilesFound 1;
          LogFile "src/a.js";
          LogCommaSeparated "src/a.js"] = map LogFile results
    /\ (exists before,
          found = before ++ [LogFound (List.length results) "TODO" "@team-a"])
    /\ [LogSearchingFor "TODO" "@team-a";
        LogParsed 1 "/repo/.github/CODEOWNERS";
        LogSearchingInPath "src/";
        LogFound 1 "TODO" "@team-a";
        LogFilesFound 1;
        LogFile "src/a.js";
        LogCommaSeparated "src/a.js"]
       = LogSearchingFor "TODO" "@team-a" :: found
           ++ match results with
              | [] => [LogNoFiles]
              | _ :: _ =>
                  LogFilesFound (List.length results)
                    :: map LogFile results
                    ++ [LogCommaSeparated (JsString.join ", " results)]
              end.
Proof.
  apply (report_lists_each_result_once Regex.reference repoScenario "/repo"
           "TODO" "@team-a" []).
  vm_compute; reflexivity.
Defined.

(** ** The translation of a pattern *)

Lemma replaceAll_app (c : ascii) (by_ a b : string) :
  replaceAll c by_ (a ++ b) = (replaceAll c by_ a ++ replaceAll c by_ b)%string.
Proof.
  induction a as [| x a IH]; simpl; [reflexivity |].
  rewrite IH. destruct (Ascii.eqb x c); [| reflexivity].
  now rewrite append_assoc.
Qed.

Lemma regexPattern_cons (c : ascii) (pattern : string) :
  regexPattern (String c pattern) =
    (regexPattern (String c EmptyString) ++ regexPattern pattern)%string.
Proof.
  unfold regexPattern.
  change (String c pattern) with (String c EmptyString ++ pattern)%string.
  now rewrite !replaceAll_app.
Qed.

Lemma regexPattern_char (c : ascii) :
  regexPattern (String c EmptyString) = translate c.
Proof.
  unfold regexPattern, translate. cbn [replaceAll].
  destruct (Ascii.eqb c ".") eqn:Hdot; [reflexivity |].
  cbn [replaceAll].
  destruct (Ascii.eqb c "*") eqn:Hstar; [reflexivity |].
  cbn [replaceAll]. now destruct (Ascii.eqb c "?").
Qed.

(** X15.  The three replacements of [isIgnored] never rewrite what an
    earlier one produced: the text they build is the pattern with each dot
    replaced by an escaped dot, each [*] by [.*] and each [?] by a dot, the
    other characters being kept. *)
Theorem replacements_act_character_by_character :
  forall pattern, regexPattern pattern = translateAll pattern.
Proof.
  induction pattern as [| c p IH]; [reflexivity |].
  rewrite regexPattern_cons, regexPattern_char, IH. reflexivity.
Qed.

(** ** Patterns with wildcards *)

(** Reading the translation of a pattern adds one term per character. *)
Lemma parseFrom_glob (pattern : string) :
  globPattern pattern = true ->
  forall (l : last) (alts terms : list regex)
         (stack : list (list regex * list regex)) (rest : string),
  exists l',
    parseFrom {| p_mode := Normal; p_last := l; p_alts := alts;
                 p_terms := terms; p_stack := stack |}
      (regexPattern pattern ++ rest) =
    parseFrom {| p_mode := Normal; p_last := l'; p_alts := alts;
                 p_terms := rev (globTerms pattern) ++ terms;
                 p_stack := stack |}
      rest.
Proof.
  induction pattern as [| c p IH]; intros H l alts terms stack rest.
  - exists l. reflexivity.
  - simpl in H. apply andb_prop in H as [Hc Hp].
    rewrite regexPattern_cons, regexPattern_char, append_assoc.
    cbn [globTerms rev]. rewrite <- app_assoc. cbn [app].
    unfold translate, globTerm.
    destruct (Ascii.eqb c ".") eqn:Hdot.
    { apply Ascii.eqb_eq in Hdot. subst c. cbn.
      apply (IH Hp). }
    destruct (Ascii.eqb c "*") eqn:Hstar.
    { apply Ascii.eqb_eq in Hstar. subst c. cbn.
      apply (IH Hp). }
    destruct (Ascii.eqb c "?") eqn:Hq.
    { apply Ascii.eqb_eq in Hq. subst c. cbn.
      apply (IH Hp). }
    rewrite !orb_false_r in Hc. apply negb_true_iff in Hc.
    destruct (isSyntaxCharacter_false c Hc)
      as (H1 & H2 & H3 & H4 & H5 & H6 & H7 & H8 & H9 & H10).
    cbn [append parseFrom step p_mode]. unfold stepNormal.
    rewrite H3, H8, H9, H10, H5, H6, H7, H1, H2, H4, Hc.
    cbn [pushTerm p_alts p_terms p_stack p_last]. apply (IH Hp).
Qed.

Ltac read_glob H :=
  match goal with
  | |- parseFrom {| p_mode := _; p_last := ?l; p_alts := ?a; p_terms := ?t;
                    p_stack := ?s |} (regexPattern ?p ++ ?rest) = _ =>
      let l' := fresh "l" in
      destruct (parseFrom_glob p H l a t s rest) as [l' ->]
  end.

Lemma compile_glob (pattern : string) :
  globPattern pattern = true ->
  compile (regexSource pattern) = Compiled (globRegex pattern).
Proof.
  intros H. unfold regexSource, compile, start.
  cbn [append parseFrom step p_mode]. unfold stepNormal at 1.
  cbn [Ascii.eqb Bool.eqb pushTerm p_alts p_terms p_stack p_last].
  read_glob H. cbn. read_glob H. cbn. read_glob H. cbn.
  unfold globRegex.
  rewrite !rev_app_distr, !rev_involutive. reflexivity.
Qed.

Lemma append_eqb_empty (a b : string) :
  ((a ++ b) =? "")%string = ((a =? "") && (b =? ""))%string.
Proof. now destruct a. Qed.

(** What [.*] consumes: a text without line terminators. *)
Lemma Matches_star_any (b : bool) (s : string) (q : position) :
  Matches (Star Any) (b, s) q <->
  exists x,
    noLineTerminator x = true
    /\ s = (x ++ snd q)%string
    /\ fst q = b && (x =? "")%string.
Proof.
  split.
  - intros H. remember (Star Any) as r eqn:Hr. remember (b, s) as p eqn:Hp.
    revert b s Hp.
    induction H as
      [ | | | | | | | | r' p | r' p q t Hstep _ Hrest IH | | | ];
      intros b0 s0 Hp; try discriminate; injection Hr as ->; subst p.
    + exists EmptyString. simpl. now rewrite andb_true_r.
    + inversion Hstep as [ | | a b' s' Ha | | | | | | | | | | ]; subst.
      destruct (IH eq_refl false s' eq_refl) as [x [Hx [-> Hb]]].
      exists (String a x). simpl. rewrite Ha, Hx.
      repeat split. now rewrite andb_false_r.
  - intros [x [Hx [-> Hb]]]. destruct q as [b' s']. simpl in *. subst b'.
    revert b. induction x as [| a x IH]; intros b.
    + simpl. rewrite andb_true_r. constructor.
    + simpl in Hx. apply andb_prop in Hx as [Ha Hx].
      apply negb_true_iff in Ha. simpl. rewrite andb_false_r.
      apply MStarStep with (q := (false, (x ++ s')%string)).
      * now constructor.
      * specialize (IH Hx false). now simpl in IH.
Qed.

(** The terms of a pattern consume a text the pattern describes. *)
Lemma matchAt_glob (pattern : string) (tail : list regex) :
  forall (atStart : bool) (s : string) (k : position -> bool),
    matchAt (seqOf (globTerms pattern ++ tail)) (atStart, s) k = true <->
    exists mid rest,
      s = (mid ++ rest)%string
      /\ Glob pattern mid
      /\ matchAt (seqOf tail) (atStart && (mid =? "")%string, rest) k = true.
Proof.
  induction pattern as [| c p IH]; intros atStart s k.
  - simpl. split.
    + intros H. exists EmptyString, s. rewrite andb_true_r.
      repeat split; [constructor | exact H].
    + intros [mid [rest [-> [Hg Hm]]]]. inversion Hg; subst.
      simpl in *. now rewrite andb_true_r in Hm.
  - cbn [globTerms app seqOf fold_right]. fold (seqOf (globTerms p ++ tail)).
    unfold globTerm.
    destruct (Ascii.eqb c "*") eqn:Hstar;
      [| destruct (Ascii.eqb c "?") eqn:Hq].
    + apply Ascii.eqb_eq in Hstar. subst c.
      change (matchAt (Seq (Star Any) (seqOf (globTerms p ++ tail)))
                (atStart, s) k)
        with (matchAt (Star Any) (atStart, s)
                (fun q => matchAt (seqOf (globTerms p ++ tail)) q k)).
      rewrite matchAt_spec. split.
      * intros [[b' s'] [Hstar Hm]].
        apply Matches_star_any in Hstar as [x [Hx [-> Hb]]]. simpl in Hb.
        subst b'. apply IH in Hm as [mid [rest [-> [Hg Hm]]]].
        exists (x ++ mid)%string, rest. rewrite append_assoc.
        split; [reflexivity |]. split; [now constructor |].
        now rewrite append_eqb_empty, andb_assoc.
      * intros [mid [rest [-> [Hg Hm]]]].
        inversion Hg as [| p' x s' Hx Hg' | | c' p' s' Hc]; subst;
          [| discriminate].
        exists (atStart && (x =? "")%string, (s' ++ rest)%string). split.
        -- apply Matches_star_any. exists x.
           rewrite append_assoc. now repeat split.
        -- apply IH. exists s', rest. split; [reflexivity |].
           split; [exact Hg' |].
           now rewrite append_eqb_empty, andb_assoc in Hm.
    + apply Ascii.eqb_eq in Hq. subst c. cbn [matchAt snd].
      destruct s as [| a s].
      * split; [discriminate |].
        intros [mid [rest [Hs [Hg _]]]]. inversion Hg; subst; discriminate.
      * rewrite andb_true_iff, negb_true_iff, IH. split.
        -- intros [Ha [mid [rest [-> [Hg Hm]]]]].
           exists (String a mid), rest. split; [reflexivity |].
           split; [now constructor |]. simpl. now rewrite andb_false_r.
        -- intros [mid [rest [Hs [Hg Hm]]]].
           inversion Hg as [| | p' a' s' Ha Hg' | c' p' s' _ Hc]; subst;
             [| discriminate].
           simpl in Hs. injection Hs as -> ->. split; [exact Ha |].
           exists s', rest. split; [reflexivity |]. split; [exact Hg' |].
           simpl in Hm. now rewrite andb_false_r in Hm.
    + cbn [matchAt snd]. destruct s as [| a s].
      * split; [discriminate |].
        intros [mid [rest [Hs [Hg _]]]].
        inversion Hg; subst; try discriminate.
      * rewrite andb_true_iff, Ascii.eqb_eq, IH. split.
        -- intros [-> [mid [rest [-> [Hg Hm]]]]].
           exists (String c mid), rest. split; [reflexivity |].
           split; [now constructor |]. simpl. now rewrite andb_false_r.
        -- intros [mid [rest [Hs [Hg Hm]]]].
           inversion Hg as [| | | c' p' s' _ _ Hg']; subst;
             try discriminate.
           simpl in Hs. injection Hs as -> ->. split; [reflexivity |].
           exists s', rest. split; [reflexivity |]. split; [exact Hg' |].
           simpl in Hm. now rewrite andb_false_r in Hm.
Qed.

Lemma matchAt_end (p : position) :
  matchAt (seqOf [Eol]) p accept = true <-> snd p = EmptyString.
Proof.
  destruct p as [b s]. simpl. destruct s; split; try reflexivity; discriminate.
Qed.

Lemma matchAt_separator (p : position) :
  matchAt (seqOf [Chr "/"]) p accept = true <->
  exists t, snd p = String "/" t.
Proof.
  destruct p as [b s]. simpl. destruct s as [| a s].
  - split; [discriminate | intros [t H]; discriminate].
  - unfold accept. rewrite andb_true_r, Ascii.eqb_eq. split.
    + intros ->. now exists s.
    + intros [t H]. now injection H.
Qed.

(** How a pattern with wildcards excludes a path: a part of the path that
    the pattern describes is the whole path, or is followed by a separator,
    or follows a separator and ends the path. *)
Lemma exec_globRegex (pattern s : string) :
  exec (globRegex pattern) s = true <->
  exists before mid after,
    s = (before ++ mid ++ after)%string
    /\ Glob pattern mid
    /\ ((before = "" /\ after = "")
        \/ (exists t, after = String "/" t)
        \/ (after = "" /\ exists u, before = (u ++ "/")%string)).
Proof.
  unfold exec. rewrite searchFrom_spec. unfold globRegex.
  cbn [matchAt seqOf fold_right fst snd].
  fold (seqOf (globTerms pattern ++ [Eol])).
  fold (seqOf (globTerms pattern ++ [Chr "/"])). split.
  - intros [pre [suf [-> Hm]]].
    apply orb_prop in Hm as [Hm | Hm]; [| apply orb_prop in Hm as [Hm | Hm]].
    + apply andb_prop in Hm as [Hb Hm].
      apply matchAt_glob in Hm as [mid [rest [-> [Hg Hm]]]].
      apply matchAt_end in Hm. simpl in Hm. subst rest.
      exists pre, mid, EmptyString. repeat split; auto. left.
      destruct pre; [now split | discriminate].
    + apply matchAt_glob in Hm as [mid [rest [-> [Hg Hm]]]].
      apply matchAt_separator in Hm as [t Ht]. simpl in Ht. subst rest.
      exists pre, mid, (String "/" t). repeat split; eauto.
    + destruct suf as [| a suf]; [discriminate |].
      apply andb_prop in Hm as [Ha Hm]. apply Ascii.eqb_eq in Ha. subst a.
      apply matchAt_glob in Hm as [mid [rest [-> [Hg Hm]]]].
      apply matchAt_end in Hm. simpl in Hm. subst rest.
      exists (pre ++ "/")%string, mid, EmptyString.
      rewrite append_assoc. repeat split; eauto.
  - intros [before [mid [after [-> [Hg Hshape]]]]].
    destruct Hshape as [[-> ->] | [[t ->] | [-> [u ->]]]].
    + exists EmptyString, (mid ++ "")%string. split; [reflexivity |].
      apply orb_true_iff; left. apply andb_true_iff. split; [reflexivity |].
      apply matchAt_glob. exists mid, EmptyString. repeat split; auto.
    + exists before, (mid ++ String "/" t)%string. split; [reflexivity |].
      apply orb_true_iff; right. apply orb_true_iff; left.
      apply matchAt_glob. exists mid, (String "/" t).
      split; [reflexivity |]. split; [exact Hg |].
      apply matchAt_separator. now exists t.
    + exists u, (String "/" (mid ++ ""))%string.
      split; [now rewrite append_assoc |].
      apply orb_true_iff; right. apply orb_true_iff; right.
      rewrite Ascii.eqb_refl. cbn [andb].
      apply matchAt_glob. exists mid, EmptyString. repeat split; auto.
Qed.

(** X16.  A pattern made of plain characters, dots, [*] and [?] excludes a
    path exactly when some part of the path reads as the pattern, with each
    [*] standing for any text and each [?] for any one character (line
    terminators apart), and that part is the whole path, or is followed by a
    separator, or follows a separator and ends the path. *)
Theorem wildcard_pattern_ignores_by_glob :
  forall engine cwd filePath pattern,
    conforms engine ->
    globPattern pattern = true ->
    exists ignored,
      isIgnored engine cwd filePath [pattern] = Ok ignored
      /\ (ignored = true <->
          exists before mid after,
            Path.relative cwd filePath = (before ++ mid ++ after)%string
            /\ Glob pattern mid
            /\ ((before = "" /\ after = "")
                \/ (exists t, after = String "/" t)
                \/ (after = "" /\ exists u, before = (u ++ "/")%string))).
Proof.
  intros engine cwd filePath pattern H Hglob.
  exists (exec (globRegex pattern) (Path.relative cwd filePath)).
  split.
  - unfold isIgnored. apply isIgnoredLoop_single; [exact H |].
    now apply compile_glob.
  - apply exec_globRegex.
Qed.

Lemma wildcard_pattern_witness :
  exists ignored,
    isIgnored reference "/repo" "/repo/src/a.test.js" ["*.test.js"] = Ok ignored
    /\ (ignored = true <->
        exists before mid after,
          Path.relative "/repo" "/repo/src/a.test.js"
          = (before ++ mid ++ after)%string
          /\ Glob "*.test.js" mid
          /\ ((before = "" /\ after = "")
              \/ (exists t, after = String "/" t)
              \/ (after = "" /\ exists u, before = (u ++ "/")%string))).
Proof.
  apply (wildcard_pattern_ignores_by_glob reference "/repo"
           "/repo/src/a.test.js" "*.test.js").
  - exact reference_conforms.
  - reflexivity.
Defined.

Example glob_reads_the_wildcards :
  Glob "*.test.js" "src/a.test.js" /\ Glob "a?c" "abc" /\ Glob "v1.0" "v1.0".
Proof.
  repeat split.
  - apply (GlobStar ".test.js" "src/a" ".test.js"); [reflexivity |].
    repeat (apply GlobChar; [reflexivity | reflexivity |]). constructor.
  - apply GlobChar; [reflexivity | reflexivity |].
    apply GlobAny; [reflexivity |].
    apply GlobChar; [reflexivity | reflexivity |]. constructor.
  - repeat (apply GlobChar; [reflexivity | reflexivity |]). constructor.
Qed.

(** ** Paths *)

Lemma split_noSlash (s : string) :
  Forall (fun seg => noSlash seg = true) (split "/" s).
Proof.
  induction s as [| c s IH]; simpl; [repeat constructor |].
  destruct (Ascii.eqb c "/") eqn:Hc; [now constructor |].
  destruct (split "/" s) as [| t ts]; [repeat constructor; simpl; now rewrite Hc |].
  inversion IH; subst. constructor; [| assumption]. simpl. now rewrite Hc.
Qed.

Lemma split_of_noSlash (s : string) : noSlash s = true -> split "/" s = [s].
Proof.
  induction s as [| c s IH]; simpl; [reflexivity |].
  intros H. apply andb_prop in H as [Hc Hs]. apply negb_true_iff in Hc.
  now rewrite Hc, (IH Hs).
Qed.

Lemma join_cons (a b : string) (l : list string) :
  JsString.join "/" (a :: b :: l)
  = (a ++ String "/" (JsString.join "/" (b :: l)))%string.
Proof. reflexivity. Qed.

Lemma split_concat (segs : list string) :
  segs <> [] -> Forall (fun seg => noSlash seg = true) segs ->
  split "/" (JsString.join "/" segs) = segs.
Proof.
  induction segs as [| seg segs IH]; intros Hne Hall; [now elim Hne |].
  inversion Hall as [| ? ? Hseg Hrest]; subst.
  destruct segs as [| seg' segs]; [now apply split_of_noSlash |].
  rewrite join_cons, split_append_separator, (split_of_noSlash _ Hseg), IH;
    [reflexivity | discriminate | assumption].
Qed.

Lemma resolve_app (acc l1 l2 : list string) :
  Path.resolve acc (l1 ++ l2) = Path.resolve (rev (Path.resolve acc l1)) l2.
Proof.
  revert acc; induction l1 as [| seg l1 IH]; intros acc; simpl.
  - now rewrite rev_involutive.
  - destruct (_ || _); [apply IH |]. destruct (Path.is_dotdot seg); apply IH.
Qed.

Lemma resolve_clean (segs acc : list string) :
  forallb cleanSegment segs = true ->
  Path.resolve acc segs = rev acc ++ segs.
Proof.
  revert acc; induction segs as [| seg segs IH]; intros acc H; simpl.
  - now rewrite app_nil_r.
  - simpl in H. apply andb_prop in H as [Hseg Hsegs].
    unfold cleanSegment in Hseg.
    apply andb_prop in Hseg as [Hseg _]. apply andb_prop in Hseg as [Hseg Hdd].
    apply andb_prop in Hseg as [He Hd].
    apply negb_true_iff in He, Hd, Hdd. rewrite He, Hd, Hdd. simpl.
    rewrite (IH _ Hsegs). simpl. now rewrite <- app_assoc.
Qed.

Lemma resolve_gives_clean (segs acc : list string) :
  Forall (fun seg => noSlash seg = true) segs ->
  forallb cleanSegment acc = true ->
  forallb cleanSegment (Path.resolve acc segs) = true.
Proof.
  revert acc; induction segs as [| seg segs IH]; intros acc Hall Hacc; simpl.
  - rewrite forallb_forall in *. intros x Hx. apply Hacc. now apply in_rev.
  - inversion Hall as [| ? ? Hseg Hrest]; subst.
    destruct (seg =? "")%string eqn:He; [now apply IH |].
    destruct (Path.is_dot seg) eqn:Hd; [now apply IH |]. simpl.
    destruct (Path.is_dotdot seg) eqn:Hdd.
    + apply IH; [assumption |]. destruct acc; [reflexivity |].
      simpl in Hacc. now apply andb_prop in Hacc as [_ Hacc].
    + apply IH; [assumption |]. simpl. unfold cleanSegment at 1.
      now rewrite He, Hd, Hdd, Hseg, Hacc.
Qed.

Lemma segments_clean (p : string) :
  forallb cleanSegment (Path.segments p) = true.
Proof.
  unfold Path.segments. apply resolve_gives_clean; [apply split_noSlash |].
  reflexivity.
Qed.

Lemma clean_all_noSlash (segs : list string) :
  forallb cleanSegment segs = true ->
  Forall (fun seg => noSlash seg = true) segs.
Proof.
  rewrite forallb_forall, Forall_forall. intros H x Hx.
  specialize (H x Hx). unfold cleanSegment in H.
  now apply andb_prop in H as [_ H].
Qed.

Lemma segments_of_joined (segs : list string) (tail : string) :
  segs <> [] ->
  forallb cleanSegment segs = true ->
  tail = "" \/ tail = "/" ->
  Path.segments ("/" ++ JsString.join "/" segs ++ tail) = segs.
Proof.
  intros Hne Hclean Htail. unfold Path.segments.
  change ("/" ++ JsString.join "/" segs ++ tail)%string
    with ("" ++ String "/" (JsString.join "/" segs ++ tail))%string.
  rewrite split_append_separator. destruct Htail as [-> | ->].
  - rewrite append_empty_r, split_concat;
      [| assumption | now apply clean_all_noSlash].
    simpl. now rewrite resolve_clean.
  - change "/" with (String "/" "") at 2.
    rewrite split_append_separator, split_concat;
      [| assumption | now apply clean_all_noSlash].
    change (split "/" "") with [""].
    change (Path.resolve [] ([""] ++ segs ++ [""]))
      with (Path.resolve [] (segs ++ [""])).
    rewrite resolve_app, (resolve_clean segs [] Hclean).
    simpl. now rewrite rev_involutive.
Qed.

Lemma endsWithSlash_app (a b : string) :
  b <> "" -> Path.endsWithSlash (a ++ b) = Path.endsWithSlash b.
Proof.
  intros Hb. induction a as [| c a IH]; [reflexivity |].
  simpl. destruct (a ++ b)%string eqn:Hab; [| exact IH].
  destruct a; [simpl in Hab; now elim Hb | discriminate].
Qed.

Lemma endsWithSlash_noSlash (s : string) :
  noSlash s = true -> Path.endsWithSlash s = false.
Proof.
  induction s as [| c s IH]; [reflexivity |]. simpl.
  intros H. apply andb_prop in H as [Hc Hs]. apply negb_true_iff in Hc.
  destruct s; [exact Hc | now apply IH].
Qed.

Lemma joined_last (segs : list string) :
  segs <> [] ->
  forallb cleanSegment segs = true ->
  JsString.join "/" segs <> ""
  /\ Path.endsWithSlash (JsString.join "/" segs) = false
  /\ stripLeadingSlash (JsString.join "/" segs) = JsString.join "/" segs.
Proof.
  induction segs as [| seg segs IH]; intros Hne H; [now elim Hne |].
  simpl in H. apply andb_prop in H as [Hseg Hsegs].
  assert (seg <> "" /\ noSlash seg = true) as [Hnonempty Hns].
  { unfold cleanSegment in Hseg. apply andb_prop in Hseg as [Hseg Hns].
    apply andb_prop in Hseg as [Hseg _]. apply andb_prop in Hseg as [He _].
    apply negb_true_iff, String.eqb_neq in He. now split. }
  assert (forall rest, stripLeadingSlash (seg ++ rest) = (seg ++ rest)%string)
    as Hstrip.
  { intros rest. destruct seg as [| c seg]; [now elim Hnonempty |].
    simpl in Hns. apply andb_prop in Hns as [Hc _].
    apply negb_true_iff, Ascii.eqb_neq in Hc. simpl.
    destruct c as [[] [] [] [] [] [] [] []]; try reflexivity. now elim Hc. }
  destruct segs as [| seg' segs].
  - change (JsString.join "/" [seg]) with seg.
    repeat split; [assumption | now apply endsWithSlash_noSlash |].
    specialize (Hstrip ""). now rewrite append_empty_r in Hstrip.
  - rewrite join_cons.
    destruct (IH ltac:(discriminate) Hsegs) as [Hn [He _]].
    repeat split.
    + destruct seg; [now elim Hnonempty | discriminate].
    + rewrite endsWithSlash_app by discriminate.
      change (String "/" (JsString.join "/" (seg' :: segs)))
        with ("/" ++ JsString.join "/" (seg' :: segs))%string.
      rewrite (endsWithSlash_app "/" _ Hn). exact He.
    + apply Hstrip.
Qed.

Lemma stripCommon_prefix (cs ps : list string) :
  Path.stripCommon cs (cs ++ ps) = ([], ps).
Proof.
  induction cs as [| c cs IH]; simpl; [now destruct ps |].
  now rewrite String.eqb_refl.
Qed.

(** Joining a clean relative path to the working directory and taking the
    result relative to the working directory gives the path back. *)
Lemma relative_join (cwd : string) (segs : list string) :
  segs <> [] ->
  forallb cleanSegment segs = true ->
  Path.relative cwd (Path.join cwd (JsString.join "/" segs))
    = JsString.join "/" segs.
Proof.
  intros Hne Hclean.
  destruct (joined_last segs Hne Hclean) as [Hnonempty [Hend _]].
  assert (Path.segments (cwd ++ "/" ++ JsString.join "/" segs)
          = Path.segments cwd ++ segs) as Hsegs.
  { unfold Path.segments at 1.
    change (cwd ++ "/" ++ JsString.join "/" segs)%string
      with (cwd ++ String "/" (JsString.join "/" segs))%string.
    rewrite split_append_separator, resolve_app.
    fold (Path.segments cwd).
    rewrite split_concat by (try assumption; now apply clean_all_noSlash).
    rewrite resolve_clean by assumption. now rewrite rev_involutive. }
  unfold Path.join.
  destruct (JsString.join "/" segs) as [| c rest] eqn:Hp; [now elim Hnonempty |].
  rewrite <- Hp in *. unfold Path.normalize. rewrite Hsegs.
  rewrite (endsWithSlash_app cwd ("/" ++ JsString.join "/" segs))
    by discriminate.
  rewrite (endsWithSlash_app "/" _ Hnonempty), Hend.
  destruct (Path.segments cwd ++ segs) as [| s0 ss] eqn:Hcat.
  { apply app_eq_nil in Hcat as [_ ->]. now elim Hne. }
  rewrite <- Hcat. unfold Path.relative.
  rewrite segments_of_joined; [| now rewrite Hcat | | now left].
  - now rewrite stripCommon_prefix.
  - rewrite forallb_app, Hclean, segments_clean. reflexivity.
Qed.

(** X17.  A regular file named by a clean relative path, written with or
    without a leading separator, and whose content contains the term, is
    reported under that relative path, whatever the working directory. *)
Theorem named_file_is_reported_under_its_path :
  forall RegExp_test fs cwd segs content searchTerm,
    segs <> [] ->
    forallb cleanSegment segs = true ->
    lookup fs (Path.join cwd (JsString.join "/" segs)) =
      Some (File (Some content)) ->
    includes (toLowerCase content) (toLowerCase searchTerm) = true ->
    searchInFiles RegExp_test fs cwd (JsString.join "/" segs) searchTerm =
      ([], [JsString.join "/" segs])
    /\ searchInFiles RegExp_test fs cwd
         (String "/" (JsString.join "/" segs)) searchTerm =
         ([], [JsString.join "/" segs]).
Proof.
  intros E fs cwd segs content searchTerm Hne Hclean Hfile Hinc.
  destruct (joined_last segs Hne Hclean) as [_ [_ Hstrip]].
  assert (forall basePath,
             stripLeadingSlash basePath = JsString.join "/" segs ->
             searchInFiles E fs cwd basePath searchTerm =
               ([], [JsString.join "/" segs])) as H.
  { intros basePath Hbase. unfold searchInFiles. rewrite Hbase.
    destruct (lookup_exists _ _ _ Hfile) as [-> ->]. simpl.
    unfold readFileSync. rewrite Hfile. simpl. rewrite Hinc.
    now rewrite relative_join. }
  split; apply H; [exact Hstrip | reflexivity].
Qed.

Lemma named_file_witness :
  searchInFiles Regex.reference repoOverlap "/repo"
    (JsString.join "/" ["src"; "a.js"]) "todo" =
    ([], [JsString.join "/" ["src"; "a.js"]])
  /\ searchInFiles Regex.reference repoOverlap "/repo"
       (String "/" (JsString.join "/" ["src"; "a.js"])) "todo" =
       ([], [JsString.join "/" ["src"; "a.js"]]).
Proof.
  apply (named_file_is_reported_under_its_path Regex.reference repoOverlap
           "/repo" ["src"; "a.js"] "TODO here" "todo").
  - discriminate.
  - reflexivity.
  - vm_compute; reflexivity.
  - vm_compute; reflexivity.
Defined.

Lemma replaceAll_removed (c : ascii) (s : string) :
  replaceAll c "" (replaceAll c "" s) = replaceAll c "" s.
Proof.
  induction s as [| a s IH]; [reflexivity |]. simpl.
  destruct (Ascii.eqb a c) eqn:Ha; [exact IH |]. simpl. now rewrite Ha, IH.
Qed.

(** X18.  The stars of an ownership path are dropped before the search:
    an entry finds the files that the entry with the stars removed from its
    path finds, so a path made of stars alone searches the working
    directory. *)
Theorem stars_are_dropped_from_owned_paths :
  forall RegExp_test fs cwd searchTerm team p o rest matchingFiles,
    snd (searchEntries RegExp_test fs cwd searchTerm team
           ({| path := p; owners := o |} :: rest) matchingFiles) =
    snd (searchEntries RegExp_test fs cwd searchTerm team
           ({| path := replaceAll "*" "" p; owners := o |} :: rest)
           matchingFiles).
Proof.
  intros E fs cwd searchTerm team p o rest acc.
  cbn [searchEntries]. unfold ownedBy, normalizedPath. cbn [path owners].
  rewrite replaceAll_removed.
  destruct (existsb _ _); [| reflexivity].
  destruct (searchInFiles _ _ _ _ _) as [out found].
  now destruct (searchEntries _ _ _ _ _ rest _).
Qed.

(** X19.  The script ends on an uncaught error only when it is given two
    arguments or more and the ownership file exists and cannot be read; the
    error is the error of that read, raised before any search is logged. *)
Theorem only_the_codeowners_read_is_uncaught :
  forall RegExp_test fs cwd args out e,
    main RegExp_test fs cwd args = (out, Uncaught e) <->
    2 <= List.length args
    /\ existsSync fs (CODEOWNERS_FILE cwd) = true
    /\ readFileSync fs (CODEOWNERS_FILE cwd) = Throw e
    /\ out = [LogSearchingFor (nth 0 args "") (nth 1 args "")].
Proof.
  intros E fs cwd args out e. unfold main.
  destruct (Nat.ltb_spec (List.length args) 2) as [Hlt | Hge].
  - split; [discriminate | intros [H _]; lia].
  - unfold findCodeownersPaths, parseCodeowners.
    destruct (existsSync fs (CODEOWNERS_FILE cwd)); simpl.
    + destruct (readFileSync fs (CODEOWNERS_FILE cwd)) as [content | e'];
        simpl.
      * destruct (searchEntries _ _ _ _ _ _ _). simpl.
        split; [discriminate | intros [_ [_ [H _]]]; discriminate].
      * split.
        -- intros H. injection H as <- <-. now repeat split.
        -- intros [_ [_ [H ->]]]. now injection H as ->.
    + split; [discriminate | intros [_ [H _]]; discriminate].
Qed.
